(** * autodoc: the Document dispatcher of terraform-provider-utils

    A shallow embedding of [autodoc.Document] (src/autodoc/autodoc.go):
    the dispatcher that parses the arguments, loads the templates, launches
    one goroutine per output document and drains their results from the
    error channel.

    The dispatcher and its goroutines are modelled as an interleaving
    transition system: a state holds the dispatcher's program point, its
    local variables, the buffer of the error channel and the goroutines in
    flight; a scheduler choice selects who moves next. *)

From Stdlib Require Import Ascii.
From stdpp Require Import gmap strings list fin_maps fin_sets.

Set Default Proof Using "Type".

(** ** Paths: Go's path/filepath on a Unix host *)

Module filepath.

(** [filepath.Separator] *)
Definition Separator : ascii := "/"%char.

Definition is_sep (c : ascii) : bool := Ascii.eqb c Separator.

(** The elements of a path: the substrings between separators. *)
Fixpoint split (path : string) : list string :=
  match path with
  | EmptyString => [EmptyString]
  | String c rest =>
      if is_sep c then EmptyString :: split rest
      else match split rest with
           | [] => [String c EmptyString]
           | x :: xs => String c x :: xs
           end
  end.

(** A path is rooted when it starts with a separator. *)
Definition rooted (path : string) : bool :=
  match path with
  | String c _ => is_sep c
  | EmptyString => false
  end.

(** One element of the lexical processing of [filepath.Clean]. [out] is
    the stack of elements kept so far, innermost first.
    - an empty element (doubled separator) and "." are dropped;
    - ".." removes the element before it when there is one that is not
      itself "..", is dropped at the root, and is kept otherwise. *)
Definition clean_step (root : bool) (out : list string) (x : string)
  : list string :=
  if decide (x = "" ∨ x = ".") then out
  else if decide (x = "..") then
    match out with
    | top :: out' => if decide (top = "..") then x :: out else out'
    | [] => if root then [] else [x]
    end
  else x :: out.

Definition clean_elems (root : bool) (out : list string) (l : list string)
  : list string :=
  fold_left (clean_step root) l out.

(** The path made of the kept elements. *)
Definition render (root : bool) (out : list string) : string :=
  (if root then "/" else "") +:+ String.concat "/" (reverse out).

(** [filepath.Clean]: the shortest path equivalent to [path] by purely
    lexical processing; the empty result is written ".". *)
Definition Clean (path : string) : string :=
  let r := render (rooted path) (clean_elems (rooted path) [] (split path)) in
  if decide (r = "") then "." else r.

(** [filepath.Join]: leading empty elements are ignored, the rest is
    joined with the separator and cleaned; no element gives "". *)
Fixpoint Join (elem : list string) : string :=
  match elem with
  | [] => ""
  | e :: rest =>
      if decide (e = "") then Join rest
      else Clean (String.concat "/" (e :: rest))
  end.

(** An element without a separator in it. *)
Fixpoint no_sep (s : string) : bool :=
  match s with
  | EmptyString => true
  | String c rest => negb (is_sep c) && no_sep rest
  end.

(** An element that Clean keeps as it is. *)
Definition plain (x : string) : Prop :=
  no_sep x ∧ x ≠ "" ∧ x ≠ "." ∧ x ≠ "..".

(** The elements of a path that Clean keeps, outermost first. *)
Definition kept (d : string) : list string :=
  reverse (clean_elems (rooted d) [] (split d)).

End filepath.

(** ** Data *)

(** Exit status constants. *)
Definition ExitSuccess : Z := 0.
Definition ExitError : Z := 1.

(** The parsed command line. The struct is declared outside this file;
    the fields are the ones Document reads, with the root and templates
    directories of the package comment. *)
Record arguments := {
  providerName : string;
  root : string;
  docsDir : string;
  templatesDir : string;
  templateFileExt : string;
  help : bool;
}.

(** The role of a schema document. *)
Inductive schemaDocType := typeProvider | typeResource | typeDataSource.

(** Modelled from the spec: the template binding names, constants declared
    outside this file (mkdocs.yml, index.md, resource.md, datasource.md). *)
Definition mkdocsYmlTemplate : string := "mkdocs.yml".
Definition providerMdTemplate : string := "index.md".
Definition resourceMdTemplate : string := "resource.md".
Definition dataSourceMdTemplate : string := "datasource.md".

(** Capacity of the error channel: [make(chan error, 1)]. *)
Definition errChanCap : nat := 1.

Section autodoc.

(** The SDK's field map ([map[string]*schema.Schema]), the loaded template
    set and Go's error values are opaque to the dispatcher. *)
Context {Fields Templates error : Type}.

(** [schema.Resource] and [schema.Provider], as far as Document reads
    them. Pointers are taken to be non-nil. *)
Record Resource := { Resource_Schema : Fields }.

Record Provider := {
  Provider_Schema : Fields;
  ResourcesMap : gmap string Resource;
  DataSourcesMap : gmap string Resource;
}.

(** The part shared by every goroutine's argument. The errChan field is
    left out: there is one channel, held by the state below. *)
Record goroutineBase := {
  outFile : string;
  template : Templates;
  templateName : string;
}.

Record mkdocsYmlDoc := {
  mkdocs_base : goroutineBase;
  provider : Provider;
  args : arguments;
}.

Record schemaDoc := {
  schema_base : goroutineBase;
  schemaType : schemaDocType;
  name : string;
  schema : Fields;
}.

(** A launched goroutine: the function and its argument. *)
Inductive Goroutine :=
  | generateMkdocsYml (d : mkdocsYmlDoc)
  | generateSchemaDoc (d : schemaDoc).

Definition base (g : Goroutine) : goroutineBase :=
  match g with
  | generateMkdocsYml d => mkdocs_base d
  | generateSchemaDoc d => schema_base d
  end.

(** What Document calls and does not define: the two parsers, with Go's
    pair of a value and an error, and the result that each goroutine
    computes from its argument. *)
Record World := {
  parseArgs : arguments * option error;
  parseTemplates : arguments → Templates * option error;
  result : Goroutine → option error;
}.

(** *** The goroutine arguments built by Document *)

Definition mkdocsYml (p : Provider) (a : arguments) (t : Templates)
  : Goroutine :=
  generateMkdocsYml
    {| mkdocs_base :=
         {| outFile := filepath.Join ["mkdocs.yml"];
            template := t;
            templateName := mkdocsYmlTemplate +:+ templateFileExt a |};
       provider := p;
       args := a |}.

Definition indexMd (p : Provider) (a : arguments) (t : Templates)
  : Goroutine :=
  generateSchemaDoc
    {| schema_base :=
         {| outFile := filepath.Join [docsDir a; "index.md"];
            template := t;
            templateName := providerMdTemplate +:+ templateFileExt a |};
       schemaType := typeProvider;
       name := providerName a;
       schema := Provider_Schema p |}.

Definition resourceMd (a : arguments) (t : Templates)
    (nm : string) (resource : Resource) : Goroutine :=
  generateSchemaDoc
    {| schema_base :=
         {| outFile := filepath.Join [docsDir a; "resources"; nm +:+ ".md"];
            template := t;
            templateName := resourceMdTemplate +:+ templateFileExt a |};
       schemaType := typeResource;
       name := nm;
       schema := Resource_Schema resource |}.

Definition dataSourceMd (a : arguments) (t : Templates)
    (nm : string) (resource : Resource) : Goroutine :=
  generateSchemaDoc
    {| schema_base :=
         {| outFile :=
              filepath.Join [docsDir a; "data-sources"; nm +:+ ".md"];
            template := t;
            templateName := dataSourceMdTemplate +:+ templateFileExt a |};
       schemaType := typeDataSource;
       name := nm;
       schema := Resource_Schema resource |}.

(** ** The transition system *)

(** What a run does that can be observed. *)
Inductive Event :=
  | EvUsage                      (* Usage() printed the usage text *)
  | EvLoadTemplates              (* parseTemplates(args) was called *)
  | EvGo (g : Goroutine)         (* a go statement launched g *)
  | EvWrite (path : string)      (* a goroutine wrote its output file *)
  | EvDone (g : Goroutine)       (* g has its result and is at its send *)
  | EvSend (r : option error)    (* a goroutine's send on errChan *)
  | EvRecv (r : option error).   (* the dispatcher's <-errChan *)

(** The dispatcher's program point, with the locals that are live. *)
Inductive Main :=
  | AtParseArgs
  | AtHelp (a : arguments)
  | AtParseTemplates (a : arguments)
  | AtMkdocsYml (a : arguments) (t : Templates)
  | AtIndexMd (a : arguments) (t : Templates)
  | AtResources (a : arguments) (t : Templates)
      (todo : gmap string Resource)
  | AtDataSources (a : arguments) (t : Templates)
      (todo : gmap string Resource)
  | AtDrain (i : nat)
  | Returned.

Record State := {
  pc : Main;
  errors : list error;
  totalGoroutines : nat;
  (* the buffer of errChan, oldest first *)
  errChan : list (option error);
  (* goroutines launched that have not produced their result yet *)
  running : list Goroutine;
  (* goroutines at their send, each with the value it sends *)
  sending : list (option error);
  (* the output files written so far *)
  files : gset string;
  trace : list Event;
}.

Definition initial : State :=
  {| pc := AtParseArgs; errors := []; totalGoroutines := 0;
     errChan := []; running := []; sending := [];
     files := ∅; trace := [] |}.

Definition goto (m : Main) (s : State) : State :=
  {| pc := m; errors := errors s; totalGoroutines := totalGoroutines s;
     errChan := errChan s; running := running s; sending := sending s;
     files := files s; trace := trace s |}.

Definition emit (ev : Event) (s : State) : State :=
  {| pc := pc s; errors := errors s; totalGoroutines := totalGoroutines s;
     errChan := errChan s; running := running s; sending := sending s;
     files := files s; trace := trace s ++ [ev] |}.

(** [errors = append(errors, err)] *)
Definition append_error (err : error) (s : State) : State :=
  {| pc := pc s; errors := errors s ++ [err];
     totalGoroutines := totalGoroutines s;
     errChan := errChan s; running := running s; sending := sending s;
     files := files s; trace := trace s |}.

(** [totalGoroutines += 1; go g] *)
Definition go (g : Goroutine) (s : State) : State :=
  {| pc := pc s; errors := errors s;
     totalGoroutines := totalGoroutines s + 1;
     errChan := errChan s; running := running s ++ [g];
     sending := sending s;
     files := files s; trace := trace s ++ [EvGo g] |}.

(** [err := <-errChan; if err != nil { errors = append(errors, err) }] on
    a buffer whose oldest value is [r]. *)
Definition receive (r : option error) (rest : list (option error))
    (s : State) : State :=
  {| pc := pc s;
     errors := match r with Some err => errors s ++ [err] | None => errors s end;
     totalGoroutines := totalGoroutines s;
     errChan := rest; running := running s; sending := sending s;
     files := files s; trace := trace s ++ [EvRecv r] |}.

(** Modelled from the spec: the goroutine bodies generateMkdocsYml and
    generateSchemaDoc, which are outside this file. A goroutine renders
    its template into its output file and then sends its single result
    on the error channel: nil when the file was written, the error
    otherwise. [work] is the rendering of the k-th running goroutine. *)
Definition work (w : World) (k : nat) (s : State) : option State :=
  g ← running s !! k;
  let r := result w g in
  Some
    {| pc := pc s; errors := errors s;
       totalGoroutines := totalGoroutines s;
       errChan := errChan s; running := delete k (running s);
       sending := sending s ++ [r];
       files := match r with
                | None => {[ outFile (base g) ]} ∪ files s
                | Some _ => files s
                end;
       trace := match r with
                | None => trace s ++ [EvWrite (outFile (base g)); EvDone g]
                | Some _ => trace s ++ [EvDone g]
                end |}.

(** The buffer of errChan has room: a send on a buffered channel goes
    through then, and blocks otherwise. *)
Definition can_send (s : State) : bool :=
  bool_decide (length (errChan s) < errChanCap).

(** Modelled from the spec: [errChan <- r], the single send of a goroutine
    body (outside this file), for the k-th goroutine at its send. *)
Definition send (k : nat) (s : State) : option State :=
  r ← sending s !! k;
  if can_send s then
    Some
      {| pc := pc s; errors := errors s;
         totalGoroutines := totalGoroutines s;
         errChan := errChan s ++ [r]; running := running s;
         sending := delete k (sending s);
         files := files s; trace := trace s ++ [EvSend r] |}
  else None.

(** The next statement of Document. A range loop over a map that still
    has entries does not move by itself: the entry it visits next is the
    scheduler's choice ([main_range]). *)
Definition main_step (w : World) (p : Provider) (s : State)
  : option State :=
  match pc s with
  | AtParseArgs =>
      match parseArgs w with
      | (_, Some argsErr) => Some (goto Returned (append_error argsErr s))
      | (a, None) => Some (goto (AtHelp a) s)
      end
  | AtHelp a =>
      if help a then Some (goto Returned (emit EvUsage s))
      else Some (goto (AtParseTemplates a) s)
  | AtParseTemplates a =>
      match parseTemplates w a with
      | (_, Some tmplErr) =>
          Some (goto Returned (append_error tmplErr (emit EvLoadTemplates s)))
      | (t, None) => Some (goto (AtMkdocsYml a t) (emit EvLoadTemplates s))
      end
  | AtMkdocsYml a t => Some (goto (AtIndexMd a t) (go (mkdocsYml p a t) s))
  | AtIndexMd a t =>
      Some (goto (AtResources a t (ResourcesMap p)) (go (indexMd p a t) s))
  | AtResources a t todo =>
      if decide (todo = ∅)
      then Some (goto (AtDataSources a t (DataSourcesMap p)) s)
      else None
  | AtDataSources a t todo =>
      if decide (todo = ∅) then Some (goto (AtDrain 0) s) else None
  | AtDrain i =>
      if decide (i < totalGoroutines s) then
        match errChan s with
        | r :: rest => Some (goto (AtDrain (S i)) (receive r rest s))
        | [] => None
        end
      else Some (goto Returned s)
  | Returned => None
  end.

(** One iteration of a range loop, on the entry named [nm]. *)
Definition main_range (nm : string) (s : State) : option State :=
  match pc s with
  | AtResources a t todo =>
      resource ← todo !! nm;
      Some (goto (AtResources a t (delete nm todo))
              (go (resourceMd a t nm resource) s))
  | AtDataSources a t todo =>
      resource ← todo !! nm;
      Some (goto (AtDataSources a t (delete nm todo))
              (go (dataSourceMd a t nm resource) s))
  | _ => None
  end.

(** Who moves next. *)
Inductive Choice :=
  | RunMain
  | RunRange (nm : string)
  | RunWork (k : nat)
  | RunSend (k : nat).

Definition step (w : World) (p : Provider) (c : Choice) (s : State)
  : option State :=
  match c with
  | RunMain => main_step w p s
  | RunRange nm => main_range nm s
  | RunWork k => work w k s
  | RunSend k => send k s
  end.

(** A run under a schedule. *)
Fixpoint run (w : World) (p : Provider) (cs : list Choice) (s : State)
  : option State :=
  match cs with
  | [] => Some s
  | c :: cs' => s' ← step w p c s; run w p cs' s'
  end.

Definition reachable (w : World) (p : Provider) (s : State) : Prop :=
  ∃ cs, run w p cs initial = Some s.

(** Document has returned [errs]. *)
Definition returns (s : State) (errs : list error) : Prop :=
  pc s = Returned ∧ errors s = errs.

(** A goroutine that is at its send while the buffer is full. *)
Definition blocked_on_send (s : State) : Prop :=
  sending s ≠ [] ∧ can_send s = false.

(** *** Reading a trace *)

Definition launched (tr : list Event) : list Goroutine :=
  omap (λ ev, match ev with EvGo g => Some g | _ => None end) tr.

Definition received (tr : list Event) : list (option error) :=
  omap (λ ev, match ev with EvRecv r => Some r | _ => None end) tr.

Definition written (tr : list Event) : list string :=
  omap (λ ev, match ev with EvWrite f => Some f | _ => None end) tr.

Definition finished (tr : list Event) : list Goroutine :=
  omap (λ ev, match ev with EvDone g => Some g | _ => None end) tr.

Definition sent (tr : list Event) : list (option error) :=
  omap (λ ev, match ev with EvSend r => Some r | _ => None end) tr.

(** The non-nil values of a list of results, in order. *)
Definition non_nil (rs : list (option error)) : list error :=
  omap id rs.

(** All the goroutines of a provider, in schema order. *)
Definition documents (p : Provider) (a : arguments) (t : Templates)
  : list Goroutine :=
  mkdocsYml p a t :: indexMd p a t ::
    (uncurry (resourceMd a t) <$> map_to_list (ResourcesMap p)) ++
    (uncurry (dataSourceMd a t) <$> map_to_list (DataSourcesMap p)).

(** ** Invariants and measures *)

Implicit Types (w : World) (p : Provider) (s : State) (c : Choice).
Implicit Types (a : arguments) (t : Templates) (g : Goroutine).
Implicit Types (tr : list Event).

Record flow_inv w s : Prop := {
  flow_total : totalGoroutines s = length (launched (trace s));
  flow_running : launched (trace s) ≡ₚ running s ++ finished (trace s);
  flow_results :
    result w <$> finished (trace s)
    ≡ₚ sending s ++ errChan s ++ received (trace s);
  flow_fifo : sent (trace s) = received (trace s) ++ errChan s;
  flow_cap : length (errChan s) ≤ errChanCap;
  flow_files : files s = list_to_set (written (trace s));
  flow_written :
    written (trace s)
    = (outFile ∘ base) <$> filter (λ g, result w g = None) (finished (trace s));
}.

(** The run got past argument parsing, the help flag and template
    loading, with arguments [a] and templates [t]. *)
Definition loaded w a t : Prop :=
  parseArgs w = (a, None) ∧ help a = false ∧ parseTemplates w a = (t, None).

Definition resourceDocs a t (m : gmap string Resource)
  : list Goroutine :=
  uncurry (resourceMd a t) <$> map_to_list m.

Definition dataSourceDocs a t (m : gmap string Resource)
  : list Goroutine :=
  uncurry (dataSourceMd a t) <$> map_to_list m.

(** The goroutines that Document has still to launch. *)
Definition to_launch p (m : Main)
  : list Goroutine :=
  match m with
  | AtMkdocsYml a t => documents p a t
  | AtIndexMd a t =>
      indexMd p a t :: resourceDocs a t (ResourcesMap p)
                    ++ dataSourceDocs a t (DataSourcesMap p)
  | AtResources a t todo =>
      resourceDocs a t todo ++ dataSourceDocs a t (DataSourcesMap p)
  | AtDataSources a t todo => dataSourceDocs a t todo
  | _ => []
  end.

Definition submitting w p s a t : Prop :=
  loaded w a t ∧ received (trace s) = [] ∧ errors s = [] ∧
  launched (trace s) ++ to_launch p (pc s) ≡ₚ documents p a t.

Definition draining w p s : Prop :=
  ∃ a t, loaded w a t ∧ launched (trace s) ≡ₚ documents p a t ∧
         errors s = non_nil (received (trace s)).

(** The three ways to return without launching anything. *)
Definition args_failed w s : Prop :=
  ∃ a err, parseArgs w = (a, Some err) ∧
           s = goto Returned (append_error err initial).

Definition help_shown w s : Prop :=
  ∃ a, parseArgs w = (a, None) ∧ help a = true ∧
       s = goto Returned (emit EvUsage initial).

Definition templates_failed w s : Prop :=
  ∃ a t err, parseArgs w = (a, None) ∧ help a = false ∧
             parseTemplates w a = (t, Some err) ∧
             s = goto Returned (append_error err (emit EvLoadTemplates initial)).

Definition phase_inv w p s : Prop :=
  match pc s with
  | AtParseArgs => s = initial
  | AtHelp a => parseArgs w = (a, None) ∧ s = goto (AtHelp a) initial
  | AtParseTemplates a =>
      parseArgs w = (a, None) ∧ help a = false ∧
      s = goto (AtParseTemplates a) initial
  | AtMkdocsYml a t | AtIndexMd a t
  | AtResources a t _ | AtDataSources a t _ => submitting w p s a t
  | AtDrain i => draining w p s ∧ i = length (received (trace s))
  | Returned =>
      args_failed w s ∨ help_shown w s ∨ templates_failed w s ∨
      (draining w p s ∧ length (received (trace s)) = totalGoroutines s)
  end.

(** The number of goroutines of a provider. *)
Definition documents_count p : nat :=
  2 + size (ResourcesMap p) + size (DataSourcesMap p).

(** A bound on the steps left to the dispatcher, counting four steps
    for each goroutine it has still to launch. *)
Definition rank p (m : Main) : nat :=
  match m with
  | AtParseArgs => 4 * documents_count p + 8
  | AtHelp _ => 4 * documents_count p + 7
  | AtParseTemplates _ => 4 * documents_count p + 6
  | AtMkdocsYml _ _ => 4 * documents_count p + 5
  | AtIndexMd _ _ =>
      4 * (1 + size (ResourcesMap p) + size (DataSourcesMap p)) + 4
  | AtResources _ _ todo => 4 * (size todo + size (DataSourcesMap p)) + 3
  | AtDataSources _ _ todo => 4 * size todo + 2
  | AtDrain _ => 1
  | Returned => 0
  end.

Definition measure p s : nat :=
  rank p (pc s) + 3 * length (running s) + 2 * length (sending s)
  + length (errChan s).

(** Every launch comes before every receive. *)
Definition submit_before_drain tr : Prop :=
  ∀ i j g r, tr !! i = Some (EvGo g) → tr !! j = Some (EvRecv r) → i < j.

(** No entry name of the provider holds a path separator. *)
Definition names_no_sep p : Prop :=
  map_Forall (λ nm _, filepath.no_sep nm) (ResourcesMap p) ∧
  map_Forall (λ nm _, filepath.no_sep nm) (DataSourcesMap p).

Definition outFiles p a t : list string :=
  (outFile ∘ base) <$> documents p a t.

(** The submissions are over: the dispatcher is in its drain loop or
    has returned from it. *)
Definition submitted s : Prop :=
  pc s = Returned ∨ ∃ i, pc s = AtDrain i.

(** Modelled from the spec: the process exit contract of main, which is
    outside this file: an empty error list exits with ExitSuccess, any
    error with ExitError. *)
Definition exitStatus (errs : list error) : Z :=
  match errs with [] => ExitSuccess | _ => ExitError end.

(** A fatal error of the run: parseArgs returned [err], or
    parseTemplates was called and returned [err]. *)
Definition fatal w s (err : error) : Prop :=
  (parseArgs w).2 = Some err ∨
  (EvLoadTemplates ∈ trace s ∧
   (parseTemplates w (parseArgs w).1).2 = Some err).





(** The roles of the documents of a provider. *)
Definition is_document (p : Provider) a (t : Templates) g : Prop :=
  g = mkdocsYml p a t ∨ g = indexMd p a t ∨
  (∃ nm r, ResourcesMap p !! nm = Some r ∧ g = resourceMd a t nm r) ∨
  (∃ nm r, DataSourcesMap p !! nm = Some r ∧ g = dataSourceMd a t nm r).

End autodoc.

Arguments Resource : clear implicits.
Arguments Provider : clear implicits.
Arguments goroutineBase : clear implicits.
Arguments mkdocsYmlDoc : clear implicits.
Arguments schemaDoc : clear implicits.
Arguments Goroutine : clear implicits.
Arguments World : clear implicits.
Arguments Event : clear implicits.
Arguments Main : clear implicits.
Arguments State : clear implicits.

(** ** Example runs *)

(** The default command line under the root /srv/site, with or without
    -help. *)
Definition acme_args (h : bool) : arguments :=
  {| providerName := "acme"; root := "/srv/site"; docsDir := "docs";
     templatesDir := "templates"; templateFileExt := ".template";
     help := h |}.

Definition widget : Resource unit := {| Resource_Schema := tt |}.

(** One resource and one data source. *)
Definition acme : Provider unit :=
  {| Provider_Schema := tt;
     ResourcesMap := {[ "acme_widget" := widget ]};
     DataSourcesMap := {[ "acme_zone" := widget ]} |}.

(** No resource, no data source. *)
Definition bare : Provider unit :=
  {| Provider_Schema := tt; ResourcesMap := ∅; DataSourcesMap := ∅ |}.

(** A resource whose name walks out of the resources directory. *)
Definition stray : Provider unit :=
  {| Provider_Schema := tt;
     ResourcesMap := {[ "../index" := widget ]};
     DataSourcesMap := ∅ |}.

(** Everything succeeds. *)
Definition fine : World unit unit string :=
  {| parseArgs := (acme_args false, None);
     parseTemplates := λ _, (tt, None);
     result := λ _, None |}.

(** The resource documents fail to render. *)
Definition resources_fail : World unit unit string :=
  {| parseArgs := (acme_args false, None);
     parseTemplates := λ _, (tt, None);
     result := λ g,
       match g with
       | generateSchemaDoc d =>
           match schemaType d with
           | typeResource => Some "render failed"
           | _ => None
           end
       | _ => None
       end |}.


(** -help is given; the templates would not load, were they asked for. *)
Definition help_asked : World unit unit string :=
  {| parseArgs := (acme_args true, None);
     parseTemplates := λ _, (tt, Some "no templates");
     result := λ _, None |}.

(** The templates do not load. *)
Definition bad_templates : World unit unit string :=
  {| parseArgs := (acme_args false, None);
     parseTemplates := λ _, (tt, Some "no templates");
     result := λ _, None |}.

(** Submission, then all the rendering, then send and receive in turn. *)
Definition submit_acme : list Choice :=
  [RunMain; RunMain; RunMain; RunMain; RunMain;
   RunRange "acme_widget"; RunMain; RunRange "acme_zone"; RunMain].

Definition acme_schedule : list Choice :=
  submit_acme ++
  [RunWork 0; RunWork 0; RunWork 0; RunWork 0;
   RunSend 0; RunMain; RunSend 0; RunMain;
   RunSend 0; RunMain; RunSend 0; RunMain; RunMain].

(** The goroutines finish in the reverse order of their launch. *)
Definition acme_reversed : list Choice :=
  submit_acme ++
  [RunWork 3; RunSend 0; RunMain; RunWork 2; RunSend 0; RunMain;
   RunWork 1; RunSend 0; RunMain; RunWork 0; RunSend 0; RunMain; RunMain].

(** A full run of the stray provider. *)
Definition stray_schedule : list Choice :=
  [RunMain; RunMain; RunMain; RunMain; RunMain;
   RunRange "../index"; RunMain; RunMain;
   RunWork 0; RunWork 0; RunWork 0;
   RunSend 0; RunMain; RunSend 0; RunMain; RunSend 0; RunMain; RunMain].

(** Both goroutines of the bare provider have rendered and one has sent,
    while the dispatcher is still before its drain loop. *)
Definition bare_two_senders : list Choice :=
  [RunMain; RunMain; RunMain; RunMain; RunMain;
   RunWork 0; RunWork 0; RunSend 0].

(** The state at the end of a schedule. *)
Definition final (w : World unit unit string) (p : Provider unit)
    (cs : list Choice) : State unit unit string :=
  default initial (run w p cs initial).

(** ** Further properties: definitions *)

Section further.
Context {Fields Templates error : Type}.
Implicit Types (w : World Fields Templates error) (p : Provider Fields).
Implicit Types (s : State Fields Templates error) (c : Choice).
Implicit Types (a : arguments) (t : Templates).
Implicit Types (g : Goroutine Fields Templates).
Implicit Types (tr : list (Event Fields Templates error)).
Implicit Types (ev : Event Fields Templates error).

(** An event of a goroutine or of the drain loop: anything but the usage
    text and the loading of the templates. *)
Definition after_loading ev : Prop :=
  match ev with
  | EvUsage | EvLoadTemplates => False
  | _ => True
  end.

(** A trace that starts with the loading of the templates, which occurs
    once, and goes on without the usage text. *)
Definition started tr : Prop :=
  ∃ tr', tr = EvLoadTemplates :: tr' ∧ Forall after_loading tr'.

(** The trace at each program point of Document. *)
Definition trace_shape s : Prop :=
  match pc s with
  | AtParseArgs | AtHelp _ | AtParseTemplates _ => trace s = []
  | Returned => trace s = [] ∨ trace s = [EvUsage] ∨ started (trace s)
  | _ => started (trace s)
  end.

(** The launches so far, in their order, at each program point: the
    config document, the index document, resource documents [rs], data
    source documents [ds]. *)
Definition launched_in_order p a t s : Prop :=
  match pc s with
  | AtParseArgs | AtHelp _ | AtParseTemplates _ | AtMkdocsYml _ _ =>
      launched (trace s) = []
  | AtIndexMd _ _ => launched (trace s) = [mkdocsYml p a t]
  | AtResources _ _ todo =>
      ∃ rs, launched (trace s) = mkdocsYml p a t :: indexMd p a t :: rs ∧
            rs ++ resourceDocs a t todo ≡ₚ resourceDocs a t (ResourcesMap p)
  | AtDataSources _ _ todo =>
      ∃ rs ds,
        launched (trace s) = mkdocsYml p a t :: indexMd p a t :: rs ++ ds ∧
        rs ≡ₚ resourceDocs a t (ResourcesMap p) ∧
        ds ++ dataSourceDocs a t todo ≡ₚ dataSourceDocs a t (DataSourcesMap p)
  | AtDrain _ | Returned =>
      ∃ rs ds,
        launched (trace s) = mkdocsYml p a t :: indexMd p a t :: rs ++ ds ∧
        rs ≡ₚ resourceDocs a t (ResourcesMap p) ∧
        ds ≡ₚ dataSourceDocs a t (DataSourcesMap p)
  end.

(** The directory part that a docs directory contributes to the paths
    joined under it: nothing for the working directory, the root for the
    root, and otherwise the cleaned directory and a separator. *)
Definition docs_prefix (d : string) : string :=
  let c := filepath.Clean d in
  if decide (c = ".") then ""
  else if decide (c = "/") then "/"
  else c +:+ "/".

(** The output path of each role under the cleaned docs directory. *)
Definition cleaned_outFile a g : string :=
  match g with
  | generateMkdocsYml _ => "mkdocs.yml"
  | generateSchemaDoc d =>
      match schemaType d with
      | typeProvider => docs_prefix (docsDir a) +:+ "index.md"
      | typeResource =>
          docs_prefix (docsDir a) +:+ "resources/" +:+ name d +:+ ".md"
      | typeDataSource =>
          docs_prefix (docsDir a) +:+ "data-sources/" +:+ name d +:+ ".md"
      end
  end.

(** The data of a goroutine is the data of its role: the provider and the
    arguments for the config document, the provider's name and fields for
    the index, and for a resource or a data source the fields registered
    under the document's name in the map of its kind. *)
Definition carries_its_entry p a g : Prop :=
  match g with
  | generateMkdocsYml d => provider d = p ∧ args d = a
  | generateSchemaDoc d =>
      match schemaType d with
      | typeProvider => name d = providerName a ∧ schema d = Provider_Schema p
      | typeResource =>
          ∃ r, ResourcesMap p !! name d = Some r ∧ schema d = Resource_Schema r
      | typeDataSource =>
          ∃ r, DataSourcesMap p !! name d = Some r ∧
               schema d = Resource_Schema r
      end
  end.

End further.

(** * Proofs *)

Example Join_ex1 : filepath.Join ["docs"; "resources"; "acme_widget" +:+ ".md"]
                   = "docs/resources/acme_widget.md".
Proof. reflexivity. Qed.
Example Join_ex2 : filepath.Join ["docs"; "resources"; "../index" +:+ ".md"]
                   = "docs/index.md".
Proof. reflexivity. Qed.
Example Join_ex3 : filepath.Join [""; "index.md"] = "index.md".
Proof. reflexivity. Qed.
Example Join_ex4 : filepath.Join ["/a//b/"; "."; "../../../c"] = "/c".
Proof. reflexivity. Qed.
Example Join_ex5 : filepath.Join ["a/.."; ""] = ".".
Proof. reflexivity. Qed.
Example Join_ex6 : filepath.Join ["../a/../.."; "b"] = "../../b".
Proof. reflexivity. Qed.
Example Join_ex7 : filepath.Join ["mkdocs.yml"] = "mkdocs.yml".
Proof. reflexivity. Qed.

(** ** Runs and reachable states *)

Section runs.
Context {Fields Templates error : Type}.
Implicit Types (w : World Fields Templates error) (p : Provider Fields).
Implicit Types (s : State Fields Templates error) (c : Choice).

Lemma run_app w p cs1 cs2 s :
  run w p (cs1 ++ cs2) s = s' ← run w p cs1 s; run w p cs2 s'.
Proof.
  revert s. induction cs1 as [|c cs1 IH]; intros s; simpl; [done|].
  destruct (step w p c s) as [s1|]; simpl; [apply IH|done].
Qed.

Lemma reachable_initial w p : reachable w p initial.
Proof. by exists []. Qed.

Lemma reachable_step w p c s s' :
  reachable w p s → step w p c s = Some s' → reachable w p s'.
Proof.
  intros [cs Hcs] Hstep. exists (cs ++ [c]).
  rewrite run_app, Hcs. simpl. by rewrite Hstep.
Qed.

Lemma reachable_run w p cs s s' :
  reachable w p s → run w p cs s = Some s' → reachable w p s'.
Proof.
  intros [cs0 Hcs0] Hrun. exists (cs0 ++ cs).
  by rewrite run_app, Hcs0.
Qed.

(** Induction over the reachable states. *)
Lemma reachable_ind w p (P : State Fields Templates error → Prop) :
  P initial →
  (∀ c s s', reachable w p s → P s → step w p c s = Some s' → P s') →
  ∀ s, reachable w p s → P s.
Proof.
  intros Hinit Hstep s [cs Hcs]. revert s Hcs.
  induction cs as [|c cs IH] using rev_ind; intros s Hcs.
  - simpl in Hcs. by simplify_eq.
  - rewrite run_app in Hcs.
    destruct (run w p cs initial) as [s0|] eqn:Hs0; [|done].
    simpl in Hcs. destruct (step w p c s0) as [s1|] eqn:Hs1; [|done].
    simplify_eq/=. eapply Hstep; [by exists cs|by apply IH|done].
Qed.

End runs.

Section readers.
Context {Fields Templates error : Type}.
Implicit Types (tr : list (Event Fields Templates error)).
Implicit Types (ev : Event Fields Templates error).

Lemma launched_app tr1 tr2 : launched (tr1 ++ tr2) = launched tr1 ++ launched tr2.
Proof. apply omap_app. Qed.
Lemma received_app tr1 tr2 : received (tr1 ++ tr2) = received tr1 ++ received tr2.
Proof. apply omap_app. Qed.
Lemma written_app tr1 tr2 : written (tr1 ++ tr2) = written tr1 ++ written tr2.
Proof. apply omap_app. Qed.
Lemma finished_app tr1 tr2 : finished (tr1 ++ tr2) = finished tr1 ++ finished tr2.
Proof. apply omap_app. Qed.
Lemma sent_app tr1 tr2 : sent (tr1 ++ tr2) = sent tr1 ++ sent tr2.
Proof. apply omap_app. Qed.
End readers.

Ltac trace_simpl :=
  rewrite ?launched_app, ?received_app, ?written_app, ?finished_app, ?sent_app;
  cbn [launched received written finished sent omap list_omap];
  rewrite ?app_nil_r.

Ltac step_cases H :=
  match type of H with
  | step _ _ ?c ?s = Some _ =>
      destruct c as [|?nm|?k|?k]; simpl in H;
      [ unfold main_step in H; destruct (pc s) eqn:?;
        repeat case_match; simplify_eq
      | unfold main_range in H; destruct (pc s) eqn:?;
        simplify_option_eq
      | | ]
  end.

Section flow.
Context {Fields Templates error : Type}.
Implicit Types (w : World Fields Templates error) (p : Provider Fields).
Implicit Types (s : State Fields Templates error) (c : Choice).

Lemma flow_initial w : flow_inv w initial.
Proof. split; simpl; try done. unfold errChanCap; lia. Qed.

Lemma flow_goto w m s : flow_inv w s → flow_inv w (goto m s).
Proof. by intros []. Qed.

Lemma flow_append_error w err s : flow_inv w s → flow_inv w (append_error err s).
Proof. by intros []. Qed.

Lemma flow_emit w ev s :
  ev = EvUsage ∨ ev = EvLoadTemplates → flow_inv w s → flow_inv w (emit ev s).
Proof. intros [->| ->] []; split; simpl; by trace_simpl. Qed.

Lemma flow_go w g s : flow_inv w s → flow_inv w (go g s).
Proof.
  intros [H1 H2 H3 H4 H5 H6 H7]; split; simpl; trace_simpl; try done.
  - rewrite length_app, H1. done.
  - rewrite H2. solve_Permutation.
Qed.

Lemma flow_receive w r rest s :
  errChan s = r :: rest → flow_inv w s → flow_inv w (receive r rest s).
Proof.
  intros Hc [H1 H2 H3 H4 H5 H6 H7]; split; simpl; trace_simpl; try done.
  - rewrite H3, Hc. solve_Permutation.
  - rewrite H4, Hc, <-app_assoc. done.
  - rewrite Hc in H5. simpl in H5. lia.
Qed.

Lemma flow_work w k s s' :
  work w k s = Some s' → flow_inv w s → flow_inv w s'.
Proof.
  unfold work. intros Hw [H1 H2 H3 H4 H5 H6 H7].
  destruct (running s !! k) as [g|] eqn:Hg; simplify_eq/=.
  apply delete_Permutation in Hg.
  set (rn' := delete k (running s)) in *.
  destruct (result w g) as [err|] eqn:Hr;
    split; simpl; trace_simpl; try done.
  - rewrite H2, Hg. solve_Permutation.
  - rewrite fmap_app, H3. simpl. rewrite Hr. solve_Permutation.
  - rewrite filter_app, filter_cons_False, filter_nil, app_nil_r by congruence.
    done.
  - rewrite H2, Hg. solve_Permutation.
  - rewrite fmap_app, H3. simpl. rewrite Hr. solve_Permutation.
  - rewrite H6, list_to_set_app_L. simpl.
    rewrite (right_id_L ∅ (∪)). apply (comm_L (∪)).
  - rewrite filter_app, filter_cons_True, filter_nil, fmap_app, H7 by done.
    done.
Qed.

Lemma flow_send w k s s' :
  send k s = Some s' → flow_inv w s → flow_inv w s'.
Proof.
  unfold send, can_send. intros Hs [H1 H2 H3 H4 H5 H6 H7].
  destruct (sending s !! k) as [r|] eqn:Hr; simplify_eq/=.
  case_bool_decide; simplify_eq/=.
  apply delete_Permutation in Hr.
  set (sd' := delete k (sending s)) in *.
  split; simpl; trace_simpl; try done.
  - rewrite H3, Hr. solve_Permutation.
  - rewrite H4, <-app_assoc. done.
  - rewrite length_app. simpl. unfold errChanCap in *. lia.
Qed.

Lemma flow_step w p c s s' :
  flow_inv w s → step w p c s = Some s' → flow_inv w s'.
Proof.
  intros Hinv Hstep. step_cases Hstep;
    eauto using flow_goto, flow_append_error, flow_emit, flow_go,
      flow_receive, flow_work, flow_send.
Qed.

Lemma flow_reachable w p s : reachable w p s → flow_inv w s.
Proof.
  apply (reachable_ind w p); eauto using flow_initial, flow_step.
Qed.

End flow.

Section phases.
Context {Fields Templates error : Type}.
Implicit Types (w : World Fields Templates error) (p : Provider Fields).
Implicit Types (s : State Fields Templates error) (c : Choice).
Implicit Types (a : arguments) (t : Templates).

Lemma work_frame w k s s' :
  work w k s = Some s' →
  running s ≠ [] ∧ pc s' = pc s ∧ errors s' = errors s ∧
  totalGoroutines s' = totalGoroutines s ∧
  launched (trace s') = launched (trace s) ∧
  received (trace s') = received (trace s).
Proof.
  unfold work. intros Hw.
  destruct (running s !! k) as [g|] eqn:Hg; simplify_eq/=.
  split; [by intros Hnil; rewrite Hnil in Hg|].
  destruct (result w g); simpl; by trace_simpl.
Qed.

Lemma send_frame k s s' :
  send k s = Some s' →
  sending s ≠ [] ∧ pc s' = pc s ∧ errors s' = errors s ∧
  totalGoroutines s' = totalGoroutines s ∧
  launched (trace s') = launched (trace s) ∧
  received (trace s') = received (trace s).
Proof.
  unfold send. intros Hs.
  destruct (sending s !! k) as [r|] eqn:Hr; simplify_eq/=.
  split; [by intros Hnil; rewrite Hnil in Hr|].
  destruct (can_send s); simplify_eq/=. by trace_simpl.
Qed.

(** A goroutine's step leaves the dispatcher's phase as it is. *)
Lemma phase_frame w p s s' :
  (running s ≠ [] ∨ sending s ≠ []) →
  pc s' = pc s → errors s' = errors s →
  totalGoroutines s' = totalGoroutines s →
  launched (trace s') = launched (trace s) →
  received (trace s') = received (trace s) →
  phase_inv w p s → phase_inv w p s'.
Proof.
  unfold phase_inv, submitting, draining.
  intros Hne Hpc Herr Htot Hl Hr. rewrite Hpc, Herr, Htot, Hl, Hr.
  assert (∀ m, s ≠ goto m initial) as Hgoto.
  { intros m ->. by destruct Hne. }
  destruct (pc s) eqn:Hm; try done.
  - intros ->. by destruct Hne.
  - intros [_ ?]. by edestruct Hgoto.
  - intros (_ & _ & ?). by edestruct Hgoto.
  - intros [(? & ? & ? & ->)|[(? & ? & ? & ->)|[(? & ? & ? & ? & ? & ? & ->)|?]]];
      try by destruct Hne.
    by do 3 right.
Qed.

Lemma resourceDocs_delete a t nm r (m : gmap string (Resource Fields)) :
  m !! nm = Some r →
  resourceDocs a t m ≡ₚ resourceMd a t nm r :: resourceDocs a t (delete nm m).
Proof.
  intros Hm. unfold resourceDocs.
  by rewrite <-(map_to_list_delete m nm r Hm), fmap_cons.
Qed.

Lemma dataSourceDocs_delete a t nm r (m : gmap string (Resource Fields)) :
  m !! nm = Some r →
  dataSourceDocs a t m
  ≡ₚ dataSourceMd a t nm r :: dataSourceDocs a t (delete nm m).
Proof.
  intros Hm. unfold dataSourceDocs.
  by rewrite <-(map_to_list_delete m nm r Hm), fmap_cons.
Qed.

Lemma received_le_total w s :
  flow_inv w s → length (received (trace s)) ≤ totalGoroutines s.
Proof.
  intros [H1 H2 H3 _ _ _ _].
  apply Permutation_length in H2, H3.
  rewrite length_fmap in H3. rewrite !length_app in *. lia.
Qed.

(** Launching [g], the first of the goroutines still to launch. *)
Lemma submitting_go w p s a t g m :
  to_launch p (pc s) ≡ₚ g :: to_launch p m →
  submitting w p s a t → submitting w p (goto m (go g s)) a t.
Proof.
  intros Hg (Hl & Hr & He & Hp). unfold submitting. split_and!; try done; simpl.
  - by trace_simpl.
  - trace_simpl. rewrite <-Hp, Hg, <-app_assoc. done.
Qed.

Lemma non_nil_snoc (rs : list (option error)) r :
  non_nil (rs ++ [r])
  = non_nil rs ++ match r with Some err => [err] | None => [] end.
Proof. unfold non_nil. rewrite omap_app. by destruct r. Qed.

Lemma phase_step w p c s s' :
  flow_inv w s → phase_inv w p s → step w p c s = Some s' → phase_inv w p s'.
Proof.
  intros Hflow Hinv Hstep. step_cases Hstep.
  all: try (unfold phase_inv in *; simpl;
            match goal with H : pc _ = _ |- _ => rewrite H in Hinv end).
  - (* parseArgs failed *) left. subst s. by eexists _, _.
  - by subst s.
  - (* -help *) destruct Hinv as [? ->]. right; left. by eexists.
  - by destruct Hinv as [? ->].
  - (* parseTemplates failed *)
    destruct Hinv as (? & ? & ->). do 2 right; left. by eexists _, _, _.
  - destruct Hinv as (? & ? & ->). unfold submitting, loaded. by split_and!.
  - apply submitting_go; [|done].
    match goal with H : pc _ = _ |- _ => by rewrite H end.
  - apply submitting_go; [|done].
    match goal with H : pc _ = _ |- _ => by rewrite H end.
  - (* the resources are done *)
    destruct Hinv as (Hl & Hr & He & Hp). unfold submitting. split_and!; try done; simpl.
    match goal with H : pc _ = _ |- _ => rewrite H in Hp end.
    simpl in Hp. unfold resourceDocs in Hp at 1.
    by rewrite map_to_list_empty in Hp.
  - (* the data sources are done *)
    destruct Hinv as (Hl & Hr & He & Hp).
    match goal with H : pc _ = _ |- _ => rewrite H in Hp end.
    simpl in Hp. unfold dataSourceDocs in Hp.
    rewrite map_to_list_empty, app_nil_r in Hp. simpl.
    split; [|by rewrite Hr].
    exists a, t. split_and!; try done. simpl. by rewrite He, Hr.
  - (* a receive *)
    destruct Hinv as [(a & t & Hl & Hp & He) ->]. split.
    + exists a, t. split_and!; try done; simpl; trace_simpl; [done|].
      rewrite non_nil_snoc, He. by case_match; rewrite ?app_nil_r.
    + trace_simpl. rewrite length_app. simpl. lia.
  - (* the drain loop is over *)
    destruct Hinv as [Hd ->]. do 3 right. split; [done|]. simpl.
    pose proof (received_le_total w s Hflow). lia.
  - apply submitting_go; [|done].
    match goal with H : pc _ = _ |- _ => rewrite H end. simpl.
    by rewrite (resourceDocs_delete a t nm) by done.
  - apply submitting_go; [|done].
    match goal with H : pc _ = _ |- _ => rewrite H end. simpl.
    by apply dataSourceDocs_delete.
  - apply work_frame in Hstep as (? & ? & ? & ? & ? & ?).
    eapply phase_frame; eauto.
  - apply send_frame in Hstep as (? & ? & ? & ? & ? & ?).
    eapply phase_frame; eauto.
Qed.

Lemma phase_reachable w p s : reachable w p s → phase_inv w p s.
Proof.
  apply (reachable_ind w p); [done|].
  intros c s0 s1 Hreach Hinv. apply phase_step; [|done].
  by eapply flow_reachable.
Qed.
End phases.

Section progress.
Context {Fields Templates error : Type}.
Implicit Types (w : World Fields Templates error) (p : Provider Fields).
Implicit Types (s : State Fields Templates error) (c : Choice).
Implicit Types (a : arguments) (t : Templates).

Lemma size_delete_Some {A} (m : gmap string A) i x :
  m !! i = Some x → size m = S (size (delete i m)).
Proof.
  intros Hi. by rewrite <-!length_map_to_list, <-(map_to_list_delete m i x Hi).
Qed.

Lemma length_delete_Some {A} (l : list A) i x :
  l !! i = Some x → length l = S (length (delete i l)).
Proof.
  intros Hi. by rewrite (Permutation_length (delete_Permutation l i x Hi)).
Qed.

(** Every step brings the run closer to its end. *)
Lemma step_measure w p c s s' :
  step w p c s = Some s' → measure p s' < measure p s.
Proof.
  intros Hstep. unfold measure. step_cases Hstep.
  all: try match goal with H : pc _ = _ |- _ => rewrite H end.
  all: simpl; rewrite ?length_app; simpl; unfold documents_count;
       rewrite ?map_size_empty; try lia.
  - match goal with H : _ !! _ = Some _ |- _ =>
      apply size_delete_Some in H end. lia.
  - match goal with H : _ !! _ = Some _ |- _ =>
      apply size_delete_Some in H end. lia.
  - unfold work in Hstep.
    destruct (running s !! k) as [g|] eqn:Hg; simplify_eq/=.
    apply length_delete_Some in Hg. rewrite length_app. simpl. lia.
  - unfold send in Hstep.
    destruct (sending s !! k) as [r|] eqn:Hr; simplify_eq/=.
    destruct (can_send s); simplify_eq/=.
    apply length_delete_Some in Hr. rewrite length_app. simpl. lia.
Qed.

(** No schedule is longer than the measure of the state it starts in. *)
Lemma run_bounded w p cs s s' :
  run w p cs s = Some s' → length cs + measure p s' ≤ measure p s.
Proof.
  revert s. induction cs as [|c cs IH]; intros s Hrun; simplify_eq/=; [lia|].
  destruct (step w p c s) as [s1|] eqn:Hs1; simplify_eq/=.
  apply step_measure in Hs1. apply IH in Hrun. lia.
Qed.

Lemma returned_or_not (m : Main Fields Templates) :
  m = Returned ∨ m ≠ Returned.
Proof. destruct m; by (left + right). Qed.

(** A reachable state in which Document has not returned can move. *)
Lemma progress w p s :
  reachable w p s → pc s ≠ Returned → ∃ c s', step w p c s = Some s'.
Proof.
  intros Hreach Hpc.
  pose proof (flow_reachable w p s Hreach) as Hflow.
  pose proof (phase_reachable w p s Hreach) as Hphase.
  unfold phase_inv in Hphase.
  destruct (pc s) eqn:Hm; try done.
  - exists RunMain. simpl. unfold main_step. rewrite Hm.
    destruct (parseArgs w) as [a [err|]]; eauto.
  - exists RunMain. simpl. unfold main_step. rewrite Hm.
    destruct (help a); eauto.
  - exists RunMain. simpl. unfold main_step. rewrite Hm.
    destruct (parseTemplates w a) as [t [err|]]; eauto.
  - exists RunMain. simpl. unfold main_step. rewrite Hm. eauto.
  - exists RunMain. simpl. unfold main_step. rewrite Hm. eauto.
  - destruct (map_choose_or_empty todo) as [(nm & r & Hnm)| ->].
    + exists (RunRange nm). simpl. unfold main_range. rewrite Hm, Hnm. eauto.
    + exists RunMain. simpl. unfold main_step. rewrite Hm.
      rewrite decide_True by done. eauto.
  - destruct (map_choose_or_empty todo) as [(nm & r & Hnm)| ->].
    + exists (RunRange nm). simpl. unfold main_range. rewrite Hm, Hnm. eauto.
    + exists RunMain. simpl. unfold main_step. rewrite Hm.
      rewrite decide_True by done. eauto.
  - destruct (decide (i < totalGoroutines s)) as [Hlt|Hge].
    + destruct Hphase as [_ ->].
      destruct Hflow as [H1 H2 H3 _ _ _ _].
      apply Permutation_length in H2, H3.
      rewrite length_fmap in H3. rewrite !length_app in *.
      destruct (errChan s) as [|r rest] eqn:Hchan.
      * destruct (sending s) as [|r sd] eqn:Hsd.
        -- destruct (running s) as [|g rn] eqn:Hrn; [simpl in *; lia|].
           exists (RunWork 0). simpl. unfold work. rewrite Hrn. simpl. eauto.
        -- exists (RunSend 0). simpl. unfold send, can_send.
           rewrite Hsd, Hchan. simpl. eauto.
      * exists RunMain. simpl. unfold main_step.
        rewrite Hm, decide_True, Hchan by done. eauto.
    + exists RunMain. simpl. unfold main_step.
      rewrite Hm, decide_False by done. eauto.
Qed.

(** Document returns: every reachable state has a schedule that ends
    with Document returned. *)
Lemma returns_eventually w p s :
  reachable w p s → ∃ cs s', run w p cs s = Some s' ∧ pc s' = Returned.
Proof.
  remember (measure p s) as n eqn:Hn. revert s Hn.
  induction (lt_wf n) as [n _ IH]. intros s -> Hreach.
  destruct (returned_or_not (pc s)) as [Hret|Hnot].
  - by exists [], s.
  - destruct (progress w p s Hreach Hnot) as (c & s1 & Hstep).
    destruct (IH (measure p s1)) with (s := s1) as (cs & s' & Hrun & Hret).
    + by eapply step_measure.
    + done.
    + by eapply reachable_step.
    + exists (c :: cs), s'. simpl. rewrite Hstep. done.
Qed.

(** A state with no enabled step is one in which Document has returned:
    the goroutines and the dispatcher never wait for each other forever. *)
Lemma stuck_returned w p s :
  reachable w p s → (∀ c, step w p c s = None) → pc s = Returned.
Proof.
  intros Hreach Hstuck.
  destruct (returned_or_not (pc s)) as [|Hnot]; [done|].
  destruct (progress w p s Hreach Hnot) as (c & s' & Hstep).
  by rewrite Hstuck in Hstep.
Qed.
End progress.


Section order.
Context {Fields Templates error : Type}.
Implicit Types (w : World Fields Templates error) (p : Provider Fields).
Implicit Types (s : State Fields Templates error) (c : Choice).
Implicit Types (a : arguments) (t : Templates).
Implicit Types (tr : list (Event Fields Templates error)).

Lemma received_nil_lookup tr j r :
  received tr = [] → tr !! j ≠ Some (EvRecv r).
Proof.
  intros Hnil Hj. apply list_elem_of_lookup_2 in Hj.
  assert (r ∈ received tr) as Hr.
  { unfold received. apply list_elem_of_omap. by exists (EvRecv r). }
  rewrite Hnil in Hr. by apply not_elem_of_nil in Hr.
Qed.

Lemma order_snoc tr ev :
  (∀ g, ev = EvGo g → received tr = []) →
  submit_before_drain tr → submit_before_drain (tr ++ [ev]).
Proof.
  intros Hev Hord i j g r Hi Hj.
  apply lookup_snoc_Some in Hi as [[Hi1 Hi2]|[-> ->]];
    apply lookup_snoc_Some in Hj as [[Hj1 Hj2]|[Hj1 Hj2]]; simplify_eq.
  - by eapply Hord.
  - done.
  - by eapply received_nil_lookup in Hj2; [|by eapply Hev].
Qed.

Lemma order_app tr evs :
  launched evs = [] →
  submit_before_drain tr → submit_before_drain (tr ++ evs).
Proof.
  induction evs as [|ev evs IH] using rev_ind; intros Hevs Hord.
  - by rewrite app_nil_r.
  - rewrite launched_app in Hevs. apply app_eq_nil in Hevs as [Hevs Hev].
    rewrite app_assoc. apply order_snoc; [|by apply IH].
    by intros g ->.
Qed.

Lemma order_go w p s a t g :
  submitting w p s a t →
  submit_before_drain (trace s) → submit_before_drain (trace s ++ [EvGo g]).
Proof. intros (_ & Hr & _) Hord. by apply order_snoc. Qed.

Lemma order_step w p c s s' :
  phase_inv w p s → submit_before_drain (trace s) →
  step w p c s = Some s' → submit_before_drain (trace s').
Proof.
  intros Hinv Hord Hstep. unfold phase_inv in Hinv. step_cases Hstep.
  all: try match goal with H : pc _ = _ |- _ => rewrite H in Hinv end.
  all: simpl; try done; try by apply order_app.
  all: try by eapply order_go.
  - unfold work in Hstep.
    destruct (running s !! k) as [g|]; simplify_eq/=.
    destruct (result w g); simpl; by apply order_app.
  - unfold send in Hstep.
    destruct (sending s !! k) as [r|]; simplify_eq/=.
    destruct (can_send s); simplify_eq/=.
    by apply order_app.
Qed.

Lemma order_reachable w p s :
  reachable w p s → submit_before_drain (trace s).
Proof.
  revert s. apply (reachable_ind w p (λ s, submit_before_drain (trace s))).
  - by intros i j g r Hi.
  - intros c s0 s1 Hreach Hord. apply order_step; [|done].
    by apply phase_reachable.
Qed.
End order.


Section paths.
Import filepath.
Implicit Types (s x d : string) (l xs out : list string).

Lemma append_length s1 s2 :
  String.length (s1 +:+ s2) = String.length s1 + String.length s2.
Proof. induction s1 as [|c s1 IH]; simpl; [done|by rewrite IH]. Qed.

Lemma append_inj_r s1 s2 x : s1 +:+ x = s2 +:+ x → s1 = s2.
Proof.
  revert s2. induction s1 as [|c s1 IH]; intros [|c2 s2] H.
  - done.
  - apply (f_equal String.length) in H.
    rewrite !append_length in H. simpl in H. lia.
  - apply (f_equal String.length) in H.
    rewrite !append_length in H. simpl in H. lia.
  - simpl in H. simplify_eq. f_equal. by apply IH.
Qed.

Lemma no_sep_append s1 s2 : no_sep s1 → no_sep s2 → no_sep (s1 +:+ s2).
Proof.
  induction s1 as [|c s1 IH]; simpl; [done|].
  intros [? ?]%andb_True ?. apply andb_True. auto.
Qed.

Lemma split_no_sep x : no_sep x → split x = [x].
Proof.
  induction x as [|c x IH]; simpl; [done|].
  intros [Hc Hx]%andb_True. apply negb_True in Hc.
  destruct (is_sep c); [done|]. by rewrite IH.
Qed.

Lemma split_nonempty s : split s ≠ [].
Proof.
  destruct s as [|c s]; simpl; [done|].
  destruct (is_sep c); [done|]. by destruct (split s).
Qed.

Lemma split_app s1 s2 :
  split (s1 +:+ String Separator s2) = split s1 ++ split s2.
Proof.
  induction s1 as [|c s1 IH]; [done|].
  simpl. rewrite IH.
  destruct (is_sep c); [done|].
  pose proof (split_nonempty s1). by destruct (split s1).
Qed.

Lemma split_concat l :
  l ≠ [] → Forall (λ x, no_sep x) l → split (String.concat "/" l) = l.
Proof.
  induction l as [|x l IH]; [done|]. intros _ Hl.
  apply Forall_cons in Hl as [Hx Hl]. simpl.
  destruct l as [|y l]; [by apply split_no_sep|].
  change (x +:+ "/" +:+ String.concat "/" (y :: l))
    with (x +:+ String Separator (String.concat "/" (y :: l))).
  rewrite split_app, split_no_sep, IH by done. done.
Qed.

Lemma split_elems s : Forall (λ x, no_sep x) (split s).
Proof.
  induction s as [|c s IH]; simpl; [by repeat constructor|].
  destruct (is_sep c) eqn:Hc; [by constructor|].
  destruct (split s) as [|x xs]; simpl.
  - repeat constructor. simpl. by rewrite Hc.
  - apply Forall_cons in IH as [Hx Hxs]. constructor; [|done].
    simpl. rewrite Hc. done.
Qed.

Lemma concat_inj l1 l2 :
  l1 ≠ [] → l2 ≠ [] →
  Forall (λ x, no_sep x) l1 → Forall (λ x, no_sep x) l2 →
  String.concat "/" l1 = String.concat "/" l2 → l1 = l2.
Proof.
  intros ? ? ? ? Heq.
  rewrite <-(split_concat l1), <-(split_concat l2) by done. by rewrite Heq.
Qed.

Lemma rooted_append d s : d ≠ "" → rooted (d +:+ s) = rooted d.
Proof. by destruct d. Qed.

Lemma rooted_plain x : plain x → rooted x = false.
Proof.
  intros (Hx & Hne & _). destruct x as [|c x]; [done|]. simpl in *.
  apply andb_True in Hx as [Hc _]. by apply negb_True, Is_true_false in Hc.
Qed.

Lemma clean_step_plain r out x : plain x → clean_step r out x = x :: out.
Proof.
  intros (_ & ? & ? & ?). unfold clean_step.
  rewrite decide_False by (by intros [?|?]). by rewrite decide_False.
Qed.

Lemma clean_elems_plain r out xs :
  Forall plain xs → clean_elems r out xs = reverse xs ++ out.
Proof.
  revert out. induction xs as [|x xs IH]; intros out Hxs; [done|].
  apply Forall_cons in Hxs as [Hx Hxs]. unfold clean_elems in *. simpl.
  rewrite clean_step_plain, IH, reverse_cons, <-app_assoc by done. done.
Qed.

Lemma clean_elems_app r out l1 l2 :
  clean_elems r out (l1 ++ l2) = clean_elems r (clean_elems r out l1) l2.
Proof. apply fold_left_app. Qed.

Lemma clean_step_no_sep r out x :
  Forall (λ x, no_sep x) out → no_sep x →
  Forall (λ x, no_sep x) (clean_step r out x).
Proof.
  intros Hout Hx. unfold clean_step.
  repeat case_decide; try done; try by constructor.
  - destruct out as [|top out']; [destruct r; by repeat constructor|].
    case_decide; [by constructor|]. by apply Forall_cons in Hout as [_ ?].
Qed.

Lemma clean_elems_no_sep r out l :
  Forall (λ x, no_sep x) out → Forall (λ x, no_sep x) l →
  Forall (λ x, no_sep x) (clean_elems r out l).
Proof.
  revert out. induction l as [|x l IH]; intros out Hout Hl; [done|].
  apply Forall_cons in Hl as [Hx Hl]. unfold clean_elems in *. simpl.
  apply IH; [|done]. by apply clean_step_no_sep.
Qed.

Lemma kept_no_sep d : Forall (λ x, no_sep x) (kept d).
Proof.
  unfold kept. apply Forall_reverse, clean_elems_no_sep; [done|].
  apply split_elems.
Qed.

Lemma plain_no_sep xs : Forall plain xs → Forall (λ x, no_sep x) xs.
Proof. intros H. eapply Forall_impl; [done|]. by intros x [? _]. Qed.

Lemma concat_nonempty l ys :
  ys ≠ [] → Forall plain ys → String.concat "/" (l ++ ys) ≠ "".
Proof.
  intros Hne Hys. induction l as [|y l IH]; simpl.
  - destruct ys as [|y ys]; [done|].
    apply Forall_cons in Hys as [(_ & Hy & _) _].
    simpl. destruct ys; [done|]. by destruct y.
  - destruct (l ++ ys) eqn:Hl; [by destruct l|]. by destruct y.
Qed.

Lemma Join_cons_ne e l :
  e ≠ "" → Join (e :: l) = Clean (String.concat "/" (e :: l)).
Proof. intros He. cbn [Join]. by rewrite decide_False. Qed.

Lemma Join_cons_empty l : Join ("" :: l) = Join l.
Proof. done. Qed.

Lemma render_kept r l ys :
  ys ≠ [] → Forall plain ys →
  (let out := render r (reverse (l ++ ys)) in
   if decide (out = "") then "." else out)
  = (if r then "/" else "") +:+ String.concat "/" (l ++ ys).
Proof.
  intros Hne Hys. unfold render. rewrite reverse_involutive. simpl.
  rewrite decide_False; [done|].
  destruct r; [done|]. by apply concat_nonempty.
Qed.

(** Joining a path with plain elements: the kept elements of the path,
    then the plain elements. *)
Lemma Join_plain d ys :
  ys ≠ [] → Forall plain ys →
  Join (d :: ys)
  = (if rooted d then "/" else "") +:+ String.concat "/" (kept d ++ ys).
Proof.
  intros Hne Hys. pose proof (plain_no_sep _ Hys) as Hns.
  destruct (decide (d = "")) as [->|Hd].
  - rewrite Join_cons_empty. destruct ys as [|y ys']; [done|].
    pose proof Hys as [Hy _]%Forall_cons.
    rewrite Join_cons_ne by by destruct Hy as (_ & ? & _).
    unfold Clean.
    assert (rooted (String.concat "/" (y :: ys')) = false) as ->.
    { simpl. destruct ys'; [by apply rooted_plain|].
      rewrite rooted_append by (by destruct Hy as (_ & ? & _)).
      by apply rooted_plain. }
    rewrite split_concat, clean_elems_plain, app_nil_r by done.
    by apply (render_kept false []).
  - rewrite Join_cons_ne by done. unfold Clean.
    destruct ys as [|y ys'] eqn:Hys'; [done|]. rewrite <-Hys' in *.
    replace (String.concat "/" (d :: ys))
      with (d +:+ String Separator (String.concat "/" ys))
      by by rewrite Hys'.
    rewrite rooted_append, split_app, split_concat by done.
    rewrite clean_elems_app, clean_elems_plain by done.
    rewrite <-(reverse_involutive (clean_elems _ [] _)), <-reverse_app.
    fold (kept d). by apply render_kept.
Qed.


Lemma append_inj_l x s1 s2 : x +:+ s1 = x +:+ s2 → s1 = s2.
Proof. induction x as [|c x IH]; simpl; [done|]. intros; simplify_eq; auto. Qed.

Lemma Join_plain_inj d ys1 ys2 :
  ys1 ≠ [] → ys2 ≠ [] → Forall plain ys1 → Forall plain ys2 →
  Join (d :: ys1) = Join (d :: ys2) → ys1 = ys2.
Proof.
  intros Hne1 Hne2 Hys1 Hys2. rewrite !Join_plain by done.
  intros Heq%append_inj_l. apply concat_inj in Heq.
  - by apply app_inv_head in Heq.
  - by destruct (kept d).
  - by destruct (kept d).
  - apply Forall_app. split; [apply kept_no_sep|by apply plain_no_sep].
  - apply Forall_app. split; [apply kept_no_sep|by apply plain_no_sep].
Qed.

(** A path joined with plain elements is not a single plain element,
    unless that element is all that was joined. *)
Lemma Join_plain_single d ys x :
  ys ≠ [] → Forall plain ys → plain x → Join (d :: ys) = x → ys = [x].
Proof.
  intros Hne Hys Hx. rewrite Join_plain by done.
  destruct (rooted d).
  - intros <-. apply rooted_plain in Hx. done.
  - simpl. intros Heq.
    change x with (String.concat "/" [x]) in Heq.
    apply concat_inj in Heq.
    + destruct (kept d) as [|k ks]; [done|].
      simpl in Heq. simplify_eq. by destruct ks.
    + by destruct (kept d).
    + done.
    + apply Forall_app. split; [apply kept_no_sep|by apply plain_no_sep].
    + repeat constructor. by destruct Hx.
Qed.

Lemma plain_md nm : no_sep nm → plain (nm +:+ ".md").
Proof.
  intros Hnm. split; [by apply no_sep_append|].
  destruct nm as [|c1 [|c2 [|c3 nm]]]; done.
Qed.

Lemma plain_index : plain "index.md".
Proof. done. Qed.
Lemma plain_resources : plain "resources".
Proof. done. Qed.
Lemma plain_data_sources : plain "data-sources".
Proof. done. Qed.
Lemma plain_mkdocs : plain "mkdocs.yml".
Proof. done. Qed.

End paths.


Ltac plain_list :=
  repeat first [apply Forall_nil_2 | apply Forall_cons_2];
  auto using plain_md.

Section files.
Context {Fields Templates error : Type}.
Implicit Types (w : World Fields Templates error) (p : Provider Fields).
Implicit Types (s : State Fields Templates error) (c : Choice).
Implicit Types (a : arguments) (t : Templates).
Implicit Types (m : gmap string (Resource Fields)).

Lemma outFiles_eq p a t :
  outFiles p a t
  = "mkdocs.yml" :: filepath.Join [docsDir a; "index.md"] ::
      ((λ nm, filepath.Join [docsDir a; "resources"; nm +:+ ".md"])
         <$> (map_to_list (ResourcesMap p)).*1) ++
      ((λ nm, filepath.Join [docsDir a; "data-sources"; nm +:+ ".md"])
         <$> (map_to_list (DataSourcesMap p)).*1).
Proof.
  unfold outFiles, documents. rewrite !fmap_cons, fmap_app.
  rewrite <-!list_fmap_compose. f_equal. f_equal.
  f_equal; apply list_fmap_ext; by intros i [nm r].
Qed.

Lemma length_documents p a t : length (documents p a t) = documents_count p.
Proof.
  unfold documents, documents_count. simpl.
  by rewrite length_app, !length_fmap, !length_map_to_list.
Qed.

Lemma elem_of_keys m nm :
  nm ∈ (map_to_list m).*1 ↔ is_Some (m !! nm).
Proof.
  rewrite list_elem_of_fmap. split.
  - intros ([nm' r] & -> & Hin%elem_of_map_to_list). by exists r.
  - intros [r Hr]. exists (nm, r). by rewrite elem_of_map_to_list.
Qed.

(** When no name holds a separator, no two documents share a file. *)
Lemma outFiles_NoDup p a t : names_no_sep p → NoDup (outFiles p a t).
Proof.
  intros [HR HD]. rewrite outFiles_eq.
  assert (∀ nm, nm ∈ (map_to_list (ResourcesMap p)).*1 → filepath.no_sep nm)
    as HR'.
  { intros nm [r Hr]%elem_of_keys. by apply (HR nm r). }
  assert (∀ nm, nm ∈ (map_to_list (DataSourcesMap p)).*1 → filepath.no_sep nm)
    as HD'.
  { intros nm [r Hr]%elem_of_keys. by apply (HD nm r). }
  pose proof plain_index. pose proof plain_resources.
  pose proof plain_data_sources. pose proof plain_mkdocs.
  repeat apply NoDup_cons_2.
  - rewrite elem_of_cons, elem_of_app, !list_elem_of_fmap.
    intros [Heq|[(nm & Heq & Hnm)|(nm & Heq & Hnm)]];
      symmetry in Heq; apply Join_plain_single in Heq; try done;
      plain_list.
  - rewrite elem_of_app, !list_elem_of_fmap.
    intros [(nm & Heq & Hnm)|(nm & Heq & Hnm)];
      apply Join_plain_inj in Heq; try done;
      plain_list.
  - apply NoDup_app. split_and!.
    + apply NoDup_fmap_2_strong; [|apply NoDup_fst_map_to_list].
      intros n1 n2 Hn1 Hn2 Heq. apply Join_plain_inj in Heq; try done;
        [|plain_list..].
      simplify_eq. by eapply append_inj_r.
    + intros f (n1 & -> & Hn1)%list_elem_of_fmap
               (n2 & Heq & Hn2)%list_elem_of_fmap.
      apply Join_plain_inj in Heq; try done;
        plain_list.
    + apply NoDup_fmap_2_strong; [|apply NoDup_fst_map_to_list].
      intros n1 n2 Hn1 Hn2 Heq. apply Join_plain_inj in Heq; try done;
        [|plain_list..].
      simplify_eq. by eapply append_inj_r.
Qed.
End files.


Section facts.
Context {Fields Templates error : Type}.
Implicit Types (w : World Fields Templates error) (p : Provider Fields).
Implicit Types (s : State Fields Templates error) (c : Choice).
Implicit Types (a : arguments) (t : Templates).
Implicit Types (g : Goroutine Fields Templates).

Lemma loaded_inj w a t a' t' :
  loaded w a t → loaded w a' t' → a = a' ∧ t = t'.
Proof.
  intros (Ha & _ & Ht) (Ha' & _ & Ht'). rewrite Ha in Ha'.
  simplify_eq. rewrite Ht in Ht'. by simplify_eq.
Qed.

Lemma size_list_to_set_le (l : list string) :
  size (list_to_set (C:=gset string) l) ≤ length l.
Proof.
  induction l as [|x l IH]; simpl; [done|].
  rewrite size_union_alt, size_singleton.
  assert (size (list_to_set (C:=gset string) l ∖ {[x]})
          ≤ size (list_to_set (C:=gset string) l)) as Hle.
  { apply subseteq_size, subseteq_difference_l. done. }
  lia.
Qed.

Lemma filter_Forall {A} (P : A → Prop) `{!∀ x, Decision (P x)} (l : list A) :
  Forall P l → filter P l = l.
Proof.
  induction 1 as [|x l Hx Hl IH]; [done|].
  by rewrite filter_cons_True, IH.
Qed.

(** What has been launched is part of the provider's documents. *)
Lemma launched_cases w p s :
  reachable w p s →
  launched (trace s) = [] ∨
  ∃ a t, loaded w a t ∧
         launched (trace s) ++ to_launch p (pc s) ≡ₚ documents p a t.
Proof.
  intros Hreach. pose proof (phase_reachable w p s Hreach) as Hinv.
  unfold phase_inv in Hinv. destruct (pc s) eqn:Hpc.
  - left. by subst s.
  - left. by destruct Hinv as [_ ->].
  - left. by destruct Hinv as (_ & _ & ->).
  - right. destruct Hinv as (? & _ & _ & ?). rewrite Hpc in *. eauto.
  - right. destruct Hinv as (? & _ & _ & ?). rewrite Hpc in *. eauto.
  - right. destruct Hinv as (? & _ & _ & ?). rewrite Hpc in *. eauto.
  - right. destruct Hinv as (? & _ & _ & ?). rewrite Hpc in *. eauto.
  - right. destruct Hinv as [(a & t & ? & ? & _) _].
    exists a, t. by rewrite app_nil_r.
  - destruct Hinv as
      [(? & ? & _ & ->)|[(? & _ & _ & ->)|[(? & ? & ? & _ & _ & _ & ->)
      |[(a & t & ? & ? & _) _]]]]; [by left..|].
    right. exists a, t. by rewrite app_nil_r.
Qed.

Lemma launched_documents w p s a t g :
  loaded w a t → reachable w p s →
  g ∈ launched (trace s) → g ∈ documents p a t.
Proof.
  intros Hl Hreach Hg.
  destruct (launched_cases w p s Hreach) as [Hnil|(a' & t' & Hl' & Hp)].
  - rewrite Hnil in Hg. by apply not_elem_of_nil in Hg.
  - destruct (loaded_inj w a t a' t') as [-> ->]; [done..|].
    rewrite <-Hp. apply elem_of_app. by left.
Qed.

Lemma submitted_documents w p s a t :
  loaded w a t → reachable w p s → submitted s →
  launched (trace s) ≡ₚ documents p a t.
Proof.
  intros Hl Hreach Hs.
  pose proof (phase_reachable w p s Hreach) as Hinv.
  unfold phase_inv in Hinv. destruct Hl as (Ha & Hh & Ht).
  destruct Hs as [Hpc|[i Hpc]]; rewrite Hpc in Hinv.
  - destruct Hinv as
      [(? & ? & ? & _)|[(? & ? & ? & _)|[(? & ? & ? & ? & ? & ? & _)
      |[(a' & t' & Hl' & ? & _) _]]]].
    + congruence.
    + congruence.
    + congruence.
    + destruct (loaded_inj w a t a' t') as [-> ->]; done.
  - destruct Hinv as [(a' & t' & Hl' & ? & _) _].
    destruct (loaded_inj w a t a' t') as [-> ->]; done.
Qed.

(** When Document has returned, no goroutine is left: each has rendered,
    sent, and had its result received. *)
Lemma returned_quiescent w p s :
  reachable w p s → pc s = Returned →
  running s = [] ∧ sending s = [] ∧ errChan s = [] ∧
  length (received (trace s)) = totalGoroutines s ∧
  finished (trace s) ≡ₚ launched (trace s) ∧
  received (trace s) ≡ₚ result w <$> launched (trace s).
Proof.
  intros Hreach Hpc.
  pose proof (phase_reachable w p s Hreach) as Hinv.
  pose proof (flow_reachable w p s Hreach) as [H1 H2 H3 _ _ _ _].
  unfold phase_inv in Hinv. rewrite Hpc in Hinv.
  destruct Hinv as
    [(? & ? & _ & ->)|[(? & _ & _ & ->)|[(? & ? & ? & _ & _ & _ & ->)
    |[_ Hlen]]]]; [done..|].
  pose proof (Permutation_length H2) as HL2.
  pose proof (Permutation_length H3) as HL3.
  rewrite length_fmap in HL3. rewrite !length_app in *.
  assert (running s = []) as Hrn.
  { apply length_zero_iff_nil. lia. }
  assert (sending s = []) as Hsd by (apply length_zero_iff_nil; lia).
  assert (errChan s = []) as Hch by (apply length_zero_iff_nil; lia).
  rewrite Hrn, Hsd, Hch in *. simpl in *. split_and!; try done.
  by rewrite <-H3, H2.
Qed.

Lemma non_nil_nil (rs : list (option error)) :
  non_nil rs = [] ↔ Forall (λ r, r = None) rs.
Proof.
  unfold non_nil. induction rs as [|[err|] rs IH]; simpl.
  - done.
  - split; [done|]. by intros [? _]%Forall_cons.
  - rewrite IH. split; [by constructor|by intros [_ ?]%Forall_cons].
Qed.

Lemma length_non_nil (rs : list (option error)) :
  length (non_nil rs) ≤ length rs.
Proof.
  unfold non_nil. induction rs as [|[err|] rs IH]; cbn in *; lia.
Qed.
End facts.



Section early.
Context {Fields Templates error : Type}.
Implicit Types (w : World Fields Templates error) (p : Provider Fields).
Implicit Types (s : State Fields Templates error) (c : Choice).
Implicit Types (a : arguments) (t : Templates).

Lemma loaded_args w a t : loaded w a t → parseArgs w = (a, None).
Proof. by intros (? & _). Qed.

(** The states of a run whose argument parsing fails. *)
Lemma args_failed_states w p a err s :
  parseArgs w = (a, Some err) → reachable w p s →
  s = initial ∨ s = goto Returned (append_error err initial).
Proof.
  intros Ha Hreach. pose proof (phase_reachable w p s Hreach) as Hinv.
  destruct (launched_cases w p s Hreach) as [_|(a' & t' & Hl & _)];
    [|apply loaded_args in Hl; congruence].
  unfold phase_inv in Hinv. destruct (pc s) eqn:Hpc.
  - by left.
  - destruct Hinv; congruence.
  - destruct Hinv; congruence.
  - destruct Hinv as [Hl%loaded_args _]. congruence.
  - destruct Hinv as [Hl%loaded_args _]. congruence.
  - destruct Hinv as [Hl%loaded_args _]. congruence.
  - destruct Hinv as [Hl%loaded_args _]. congruence.
  - destruct Hinv as [(? & ? & Hl%loaded_args & _) _]. congruence.
  - destruct Hinv as
      [(? & ? & ? & ->)|[(? & ? & _)|[(? & ? & ? & ? & _)
      |[(? & ? & Hl%loaded_args & _) _]]]]; try congruence.
    right. repeat f_equal. congruence.
Qed.

(** The states of a run with the help flag set. *)
Lemma help_states w p a s :
  parseArgs w = (a, None) → help a = true → reachable w p s →
  s = initial ∨ s = goto (AtHelp a) initial ∨
  s = goto Returned (emit EvUsage initial).
Proof.
  intros Ha Hh Hreach. pose proof (phase_reachable w p s Hreach) as Hinv.
  assert (∀ a' t', ¬ loaded w a' t') as Hnot.
  { intros a' t' (Ha' & Hh' & _). congruence. }
  unfold phase_inv in Hinv. destruct (pc s) eqn:Hpc.
  - by left.
  - destruct Hinv as [Ha' ->]. right; left. congruence.
  - destruct Hinv as (? & ? & _). congruence.
  - destruct Hinv as [Hl _]. by apply Hnot in Hl.
  - destruct Hinv as [Hl _]. by apply Hnot in Hl.
  - destruct Hinv as [Hl _]. by apply Hnot in Hl.
  - destruct Hinv as [Hl _]. by apply Hnot in Hl.
  - destruct Hinv as [(? & ? & Hl & _) _]. by apply Hnot in Hl.
  - destruct Hinv as
      [(? & ? & ? & _)|[(? & ? & ? & ->)|[(? & ? & ? & ? & ? & _)
      |[(? & ? & Hl & _) _]]]]; try congruence.
    + by do 2 right.
    + by apply Hnot in Hl.
Qed.

(** The states of a run whose template loading fails. *)
Lemma templates_failed_states w p a t err s :
  parseArgs w = (a, None) → help a = false →
  parseTemplates w a = (t, Some err) → reachable w p s →
  s = initial ∨ s = goto (AtHelp a) initial ∨
  s = goto (AtParseTemplates a) initial ∨
  s = goto Returned (append_error err (emit EvLoadTemplates initial)).
Proof.
  intros Ha Hh Ht Hreach.
  pose proof (phase_reachable w p s Hreach) as Hinv.
  assert (∀ a' t', ¬ loaded w a' t') as Hnot.
  { intros a' t' (Ha' & Hh' & Ht'). congruence. }
  unfold phase_inv in Hinv. destruct (pc s) eqn:Hpc.
  - by left.
  - destruct Hinv as [Ha' ->]. right; left. congruence.
  - destruct Hinv as (? & ? & ->). do 2 right; left. congruence.
  - destruct Hinv as [Hl _]. by apply Hnot in Hl.
  - destruct Hinv as [Hl _]. by apply Hnot in Hl.
  - destruct Hinv as [Hl _]. by apply Hnot in Hl.
  - destruct Hinv as [Hl _]. by apply Hnot in Hl.
  - destruct Hinv as [(? & ? & Hl & _) _]. by apply Hnot in Hl.
  - destruct Hinv as
      [(? & ? & ? & _)|[(? & ? & ? & _)|[(? & ? & ? & ? & ? & ? & ->)
      |[(? & ? & Hl & _) _]]]]; try congruence.
    + do 3 right. repeat f_equal. congruence.
    + by apply Hnot in Hl.
Qed.

(** A run in which template loading was called got past argument
    parsing and the help flag. *)
Lemma load_templates_called w p s :
  reachable w p s → EvLoadTemplates ∈ trace s →
  ∃ a, parseArgs w = (a, None) ∧ help a = false.
Proof.
  intros Hreach Hev. pose proof (phase_reachable w p s Hreach) as Hinv.
  unfold phase_inv in Hinv. destruct (pc s) eqn:Hpc.
  - subst s. by apply not_elem_of_nil in Hev.
  - destruct Hinv as [_ ->]. by apply not_elem_of_nil in Hev.
  - destruct Hinv as (_ & _ & ->). by apply not_elem_of_nil in Hev.
  - destruct Hinv as [(? & ? & _) _]. eauto.
  - destruct Hinv as [(? & ? & _) _]. eauto.
  - destruct Hinv as [(? & ? & _) _]. eauto.
  - destruct Hinv as [(? & ? & _) _]. eauto.
  - destruct Hinv as [(? & ? & (? & ? & _) & _) _]. eauto.
  - destruct Hinv as
      [(? & ? & ? & ->)|[(? & ? & ? & ->)|[(? & ? & ? & ? & ? & ? & _)
      |[(? & ? & (? & ? & _) & _) _]]]]; eauto.
    + by apply not_elem_of_nil in Hev.
    + simpl in Hev. apply list_elem_of_singleton in Hev. done.
Qed.
End early.


Section early_claims.
Context {Fields Templates error : Type}.
Implicit Types (w : World Fields Templates error) (p : Provider Fields).
Implicit Types (s : State Fields Templates error) (c : Choice).
Implicit Types (a : arguments) (t : Templates).
Implicit Types (g : Goroutine Fields Templates).

(** C3. When argument parsing fails, or template loading is called and
    fails, Document short-circuits: no goroutine is launched, no file is
    written, and the run returns the list whose only element is that
    fatal error. The run does return: from every state of such a run a
    schedule leads to Document returning [[err]]. *)
Theorem fatal_error_short_circuits w p s err :
  reachable w p s → fatal w s err →
  launched (trace s) = [] ∧ written (trace s) = [] ∧
  totalGoroutines s = 0 ∧ running s = [] ∧ sending s = [] ∧ files s = ∅ ∧
  (pc s = Returned → errors s = [err]) ∧
  ∃ cs s', run w p cs s = Some s' ∧ returns s' [err].
Proof.
  intros Hreach Hfatal.
  destruct (returns_eventually w p s Hreach) as (cs & s' & Hrun & Hret).
  pose proof (reachable_run w p cs s s' Hreach Hrun) as Hreach'.
  destruct Hfatal as [Herr|[Hev Herr]].
  - destruct (parseArgs w) as [a oerr] eqn:Ha. simpl in Herr. subst oerr.
    assert (errors s' = [err]) as Herrs'.
    { destruct (args_failed_states w p a err s' Ha Hreach') as [->| ->];
        done. }
    destruct (args_failed_states w p a err s Ha Hreach) as [->| ->];
      split_and!; try done; by exists cs, s'.
  - destruct (load_templates_called w p s Hreach Hev) as (a & Ha & Hh).
    rewrite Ha in Herr. simpl in Herr.
    destruct (parseTemplates w a) as [t oerr] eqn:Ht. simpl in Herr.
    subst oerr.
    assert (errors s' = [err]) as Herrs'.
    { destruct (templates_failed_states w p a t err s' Ha Hh Ht Hreach')
        as [->|[->|[->| ->]]]; done. }
    destruct (templates_failed_states w p a t err s Ha Hh Ht Hreach)
      as [->|[->|[->| ->]]];
      split_and!; try done; by exists cs, s'.
Qed.

(** C7. When argument parsing succeeds and the help flag is set, the
    run prints the usage text and nothing else: templates are not loaded,
    no goroutine is launched, no file is written; Document returns the
    empty list after two dispatcher steps, and the exit status of an empty
    list is ExitSuccess. *)
Theorem help_prints_usage_only w p a s :
  parseArgs w = (a, None) → help a = true → reachable w p s →
  launched (trace s) = [] ∧ (EvLoadTemplates ∉ trace s) ∧
  files s = ∅ ∧
  (pc s = Returned →
   trace s = [EvUsage] ∧ errors s = [] ∧
   exitStatus (errors s) = ExitSuccess) ∧
  run w p [RunMain; RunMain] initial
  = Some (goto Returned (emit EvUsage initial)).
Proof.
  intros Ha Hh Hreach. split_and!.
  - by destruct (help_states w p a s Ha Hh Hreach) as [->|[->| ->]].
  - destruct (help_states w p a s Ha Hh Hreach) as [->|[->| ->]]; simpl;
      try apply not_elem_of_nil.
    by intros ?%list_elem_of_singleton.
  - by destruct (help_states w p a s Ha Hh Hreach) as [->|[->| ->]].
  - by destruct (help_states w p a s Ha Hh Hreach) as [->|[->| ->]].
  - simpl. unfold main_step. simpl. rewrite Ha. simpl.
    unfold main_step. simpl. by rewrite Hh.
Qed.


(** C9. The error list of Document never holds more than
    2 + |ResourcesMap| + |DataSourcesMap| errors, and once goroutines have
    been launched never more than one error per launched goroutine. *)
Theorem errors_bounded_by_tasks w p s :
  reachable w p s →
  length (errors s) ≤ documents_count p ∧
  (launched (trace s) ≠ [] → length (errors s) ≤ totalGoroutines s).
Proof.
  intros Hreach.
  pose proof (phase_reachable w p s Hreach) as Hinv.
  pose proof (flow_reachable w p s Hreach) as Hflow.
  pose proof (received_le_total w s Hflow) as Hle.
  assert (draining w p s →
          length (errors s) ≤ totalGoroutines s ∧
          totalGoroutines s = documents_count p) as Hdrain.
  { intros (a & t & _ & Hp & ->).
    pose proof (length_non_nil (received (trace s))).
    rewrite (flow_total w s Hflow), (Permutation_length Hp), length_documents
      in *. lia. }
  unfold documents_count.
  unfold phase_inv in Hinv. destruct (pc s) eqn:Hpc.
  - subst s. simpl. split; [lia|done].
  - destruct Hinv as [_ ->]. simpl. split; [lia|done].
  - destruct Hinv as (_ & _ & ->). simpl. split; [lia|done].
  - destruct Hinv as (_ & _ & -> & _). simpl. split; lia.
  - destruct Hinv as (_ & _ & -> & _). simpl. split; lia.
  - destruct Hinv as (_ & _ & -> & _). simpl. split; lia.
  - destruct Hinv as (_ & _ & -> & _). simpl. split; lia.
  - destruct Hinv as [Hd%Hdrain _]. unfold documents_count in *. lia.
  - destruct Hinv as
      [(? & ? & _ & ->)|[(? & _ & _ & ->)|[(? & ? & ? & _ & _ & _ & ->)
      |[Hd%Hdrain _]]]]; simpl; try (split; [lia|done]).
    unfold documents_count in *. lia.
Qed.
End early_claims.



Section document_claims.
Context {Fields Templates error : Type}.
Implicit Types (w : World Fields Templates error) (p : Provider Fields).
Implicit Types (s : State Fields Templates error) (c : Choice).
Implicit Types (a : arguments) (t : Templates).
Implicit Types (g : Goroutine Fields Templates).

Lemma elem_of_documents p a t g :
  g ∈ documents p a t ↔ is_document p a t g.
Proof.
  unfold documents, is_document.
  rewrite !elem_of_cons, elem_of_app, !list_elem_of_fmap.
  split.
  - intros [?|[?|[([nm r] & -> & Hin%elem_of_map_to_list)
                 |([nm r] & -> & Hin%elem_of_map_to_list)]]];
      [by left|by right; left|do 2 right; left|do 3 right];
      by exists nm, r.
  - intros [?|[?|[(nm & r & Hin & ->)|(nm & r & Hin & ->)]]];
      [by left|by right; left|do 2 right; left|do 3 right];
      exists (nm, r); by rewrite elem_of_map_to_list.
Qed.



Lemma received_nil_iff (tr : list (Event Fields Templates error)) :
  received tr = [] ↔ ∀ j r, tr !! j ≠ Some (EvRecv r).
Proof.
  split; [intros Hnil j r; by apply received_nil_lookup|].
  intros Hno. destruct (received tr) as [|r rs] eqn:Hr; [done|].
  assert (r ∈ received tr) as Hin by (rewrite Hr; apply list_elem_of_here).
  unfold received in Hin. apply list_elem_of_omap in Hin as (ev & Hev & Heq).
  destruct ev; simplify_eq.
  apply list_elem_of_lookup in Hev as [j Hj]. by apply Hno in Hj.
Qed.

(** A trace in which every launch comes before every receive is a
    submission part without a receive followed by a drain part without a
    launch. *)
Lemma order_split (tr : list (Event Fields Templates error)) :
  submit_before_drain tr →
  ∃ tr1 tr2, tr = tr1 ++ tr2 ∧ received tr1 = [] ∧ launched tr2 = [].
Proof.
  induction tr as [|ev tr IH] using rev_ind; intros Hord.
  - by exists [], [].
  - destruct IH as (tr1 & tr2 & -> & Hr1 & Hl2).
    { intros i j g r Hi Hj. apply (Hord i j g r); by apply lookup_app_l_Some. }
    destruct (launched [ev]) as [|g l] eqn:Hev.
    + exists tr1, (tr2 ++ [ev]). rewrite app_assoc, launched_app, Hl2, Hev.
      done.
    + destruct ev; simplify_eq/=. exists ((tr1 ++ tr2) ++ [EvGo g]), [].
      rewrite app_nil_r, received_app. simpl. rewrite app_nil_r.
      split_and!; [done| |done].
      apply received_nil_iff. intros j r Hj.
      assert (length (tr1 ++ tr2) < j); [|apply lookup_lt_Some in Hj; lia].
      apply (Hord _ j g r); [|by apply lookup_app_l_Some].
      by rewrite lookup_app_r, Nat.sub_diag.
Qed.

(** Only a receive of the dispatcher changes what has been received, and
    a receive is a step of the drain loop. *)
Lemma receive_step w p c s s' :
  step w p c s = Some s' →
  received (trace s') ≠ received (trace s) →
  (∃ i, pc s = AtDrain i) ∧ launched (trace s') = launched (trace s).
Proof.
  intros Hstep Hrecv. step_cases Hstep; simpl in Hrecv;
    try (by exfalso; apply Hrecv; trace_simpl).
  - split; [by eauto|]. simpl. by trace_simpl.
  - by apply work_frame in Hstep as (_ & _ & _ & _ & _ & ?).
  - by apply send_frame in Hstep as (_ & _ & _ & _ & _ & ?).
Qed.

(** C5. In every run each launch comes before each receive: the trace is
    a submission part without a receive followed by a drain part without
    a launch, and the run goes on to Document's return with as many
    results received as goroutines launched. In a run that got past
    argument parsing, the help flag and template loading, nothing has been
    received before the submissions are over and all the provider's
    documents (config, index, every resource, every data source) have
    been launched; every step that receives a result finds all of them
    launched and launches nothing; when Document has returned it has
    launched all the documents and received exactly
    2 + |ResourcesMap| + |DataSourcesMap| results; and every such run can
    be continued to that return. *)
Theorem submit_all_then_drain w p s :
  reachable w p s →
  submit_before_drain (trace s) ∧
  (∃ tr1 tr2, trace s = tr1 ++ tr2 ∧ received tr1 = [] ∧ launched tr2 = []) ∧
  (∃ cs s', run w p cs s = Some s' ∧ pc s' = Returned ∧
            length (received (trace s')) = length (launched (trace s'))) ∧
  ∀ a t, loaded w a t →
    (received (trace s) ≠ [] →
     submitted s ∧ launched (trace s) ≡ₚ documents p a t) ∧
    (∀ c s', step w p c s = Some s' →
       received (trace s') ≠ received (trace s) →
       launched (trace s) ≡ₚ documents p a t ∧
       launched (trace s') = launched (trace s)) ∧
    (pc s = Returned →
     launched (trace s) ≡ₚ documents p a t ∧
     length (received (trace s)) = documents_count p) ∧
    (∃ cs s', run w p cs s = Some s' ∧ pc s' = Returned ∧
              launched (trace s') ≡ₚ documents p a t ∧
              length (received (trace s')) = documents_count p).
Proof.
  intros Hreach.
  assert (∀ s0, reachable w p s0 → pc s0 = Returned →
            length (received (trace s0)) = length (launched (trace s0)))
    as Hcount.
  { intros s0 Hreach0 Hpc0.
    destruct (returned_quiescent w p s0 Hreach0 Hpc0) as (_ & _ & _ & -> & _).
    by apply flow_reachable in Hreach0 as [-> _ _ _ _ _ _]. }
  assert (∀ a t s0, loaded w a t → reachable w p s0 → pc s0 = Returned →
            launched (trace s0) ≡ₚ documents p a t ∧
            length (received (trace s0)) = documents_count p) as Hret.
  { intros a t s0 Hl Hreach0 Hpc0.
    pose proof (submitted_documents w p s0 a t Hl Hreach0 (or_introl Hpc0))
      as Hp.
    split; [done|].
    by rewrite (Hcount s0 Hreach0 Hpc0), (Permutation_length Hp),
      length_documents. }
  destruct (returns_eventually w p s Hreach) as (cs & s' & Hrun & Hpc').
  pose proof (reachable_run w p cs s s' Hreach Hrun) as Hreach'.
  pose proof (order_reachable w p s Hreach) as Hord.
  split_and!; [done|by apply order_split|by eauto 6|].
  intros a t Hl.
  assert (∀ s0, reachable w p s0 → received (trace s0) ≠ [] → submitted s0)
    as Hsub.
  { intros s0 Hreach0 Hrecv.
    pose proof (phase_reachable w p s0 Hreach0) as Hinv.
    unfold phase_inv, submitted in *. destruct (pc s0) eqn:Hpc0; eauto.
    - by subst s0.
    - by destruct Hinv as [_ ->].
    - by destruct Hinv as (_ & _ & ->).
    - by destruct Hinv as (_ & ? & _).
    - by destruct Hinv as (_ & ? & _).
    - by destruct Hinv as (_ & ? & _).
    - by destruct Hinv as (_ & ? & _). }
  split_and!.
  - intros Hrecv. pose proof (Hsub s Hreach Hrecv) as Hs.
    split; [done|]. by apply (submitted_documents w).
  - intros c s1 Hstep Hrecv.
    destruct (receive_step w p c s s1 Hstep Hrecv) as [[i Hpc] Hla].
    split; [|done]. apply (submitted_documents w); [done..|]. right. eauto.
  - by apply Hret.
  - destruct (Hret a t s' Hl Hreach' Hpc') as [? ?]. by exists cs, s'.
Qed.

(** C4. When Document has returned, the dispatcher has received exactly
    as many results as it launched goroutines, whatever the results were;
    the results received are those of the launched goroutines, in the
    order in which they were sent; after a launch the returned list is the
    non-nil results in the order of their arrival; an empty returned list
    means that every launched goroutine succeeded, and conversely. *)
Theorem aggregator_collects_all w p s :
  reachable w p s → pc s = Returned →
  length (received (trace s)) = totalGoroutines s ∧
  totalGoroutines s = length (launched (trace s)) ∧
  received (trace s) ≡ₚ result w <$> launched (trace s) ∧
  sent (trace s) = received (trace s) ∧
  (launched (trace s) ≠ [] → errors s = non_nil (received (trace s))) ∧
  (errors s = [] → ∀ g, g ∈ launched (trace s) → result w g = None) ∧
  (launched (trace s) ≠ [] →
   (∀ g, g ∈ launched (trace s) → result w g = None) → errors s = []).
Proof.
  intros Hreach Hpc.
  destruct (returned_quiescent w p s Hreach Hpc)
    as (_ & _ & Hch & Hlen & _ & Hperm).
  pose proof (flow_reachable w p s Hreach) as Hflow.
  pose proof (phase_reachable w p s Hreach) as Hinv.
  unfold phase_inv in Hinv. rewrite Hpc in Hinv.
  assert (launched (trace s) ≠ [] → errors s = non_nil (received (trace s)))
    as Herrs.
  { destruct Hinv as
      [(? & ? & _ & ->)|[(? & _ & _ & ->)|[(? & ? & ? & _ & _ & _ & ->)
      |[(a & t & _ & _ & ?) _]]]]; done. }
  assert (launched (trace s) = [] → received (trace s) = []) as Hnone.
  { intros Hnil. rewrite Hnil in Hperm. by apply Permutation_nil_r in Hperm. }
  split_and!; try done.
  - apply (flow_total w s Hflow).
  - by rewrite (flow_fifo w s Hflow), Hch, app_nil_r.
  - intros Hnil g Hg.
    assert (launched (trace s) ≠ []) as Hne.
    { intros Hl. rewrite Hl in Hg. by apply not_elem_of_nil in Hg. }
    rewrite (Herrs Hne) in Hnil. apply non_nil_nil in Hnil.
    rewrite Hperm in Hnil. rewrite Forall_fmap, Forall_forall in Hnil.
    by apply Hnil.
  - intros Hne Hall. rewrite (Herrs Hne). apply non_nil_nil.
    rewrite Hperm, Forall_fmap, Forall_forall. done.
Qed.
End document_claims.


Section channel_claims.
Context {Fields Templates error : Type}.
Implicit Types (w : World Fields Templates error) (p : Provider Fields).
Implicit Types (s : State Fields Templates error) (c : Choice).
Implicit Types (a : arguments) (t : Templates).
Implicit Types (g : Goroutine Fields Templates).

(** The files of a run that has returned with every result nil. *)
Lemma files_returned w p a t s :
  loaded w a t → reachable w p s → pc s = Returned →
  (∀ g, g ∈ documents p a t → result w g = None) →
  files s = list_to_set (outFiles p a t).
Proof.
  intros Hl Hreach Hpc Hok.
  destruct (returned_quiescent w p s Hreach Hpc)
    as (_ & _ & _ & _ & Hfin & _).
  pose proof (flow_reachable w p s Hreach) as Hflow.
  pose proof (submitted_documents w p s a t Hl Hreach (or_introl Hpc)) as Hp.
  rewrite (flow_files w s Hflow), (flow_written w s Hflow).
  rewrite filter_Forall.
  - unfold outFiles. apply list_to_set_perm_L. by rewrite Hfin, Hp.
  - apply Forall_forall. intros g Hg. apply Hok. by rewrite <-Hp, <-Hfin.
Qed.

(** C1, amended. A run that got past argument parsing, the help flag and
    template loading has, once the submissions are over, launched exactly
    2 + R + D goroutines: the provider's documents (one config, one index,
    one per resource, one per data source). When the run has returned with
    every document successful, the files written are the output paths of
    the documents: at most 2 + R + D files, and exactly 2 + R + D when no
    resource or data-source name holds a path separator. *)
Theorem submits_one_task_per_document w p a t s :
  loaded w a t → reachable w p s → submitted s →
  totalGoroutines s = documents_count p ∧
  length (launched (trace s)) = documents_count p ∧
  launched (trace s) ≡ₚ documents p a t ∧
  (pc s = Returned →
   (∀ g, g ∈ documents p a t → result w g = None) →
   files s = list_to_set (outFiles p a t) ∧
   size (files s) ≤ documents_count p ∧
   (names_no_sep p → size (files s) = documents_count p)).
Proof.
  intros Hl Hreach Hs.
  pose proof (submitted_documents w p s a t Hl Hreach Hs) as Hp.
  pose proof (flow_reachable w p s Hreach) as Hflow.
  pose proof (Permutation_length Hp) as Hlen.
  rewrite length_documents in Hlen.
  split_and!; try done.
  - by rewrite (flow_total w s Hflow).
  - intros Hpc Hok.
    rewrite (files_returned w p a t s) by done.
    rewrite <-(length_documents p a t).
    replace (length (documents p a t)) with (length (outFiles p a t))
      by apply length_fmap.
    split_and!; [done|apply size_list_to_set_le|].
    intros Hnames. by apply size_list_to_set, outFiles_NoDup.
Qed.

(** C2, amended. The error channel holds at most one result. A goroutine
    blocked on its send finds the buffer full while Document has not
    returned; in the drain loop the dispatcher's next receive makes room
    for a send. No run deadlocks: a state without an enabled step is one
    in which Document has returned, when Document has returned no
    goroutine is left running or at its send and the buffer is empty, and
    every state has a schedule to Document's return. *)
Theorem errChan_holds_one_result w p s :
  reachable w p s →
  length (errChan s) ≤ 1 ∧
  (blocked_on_send s → length (errChan s) = 1 ∧ pc s ≠ Returned) ∧
  (blocked_on_send s → ∀ i, pc s = AtDrain i →
   ∃ s', step w p RunMain s = Some s' ∧ can_send s' = true) ∧
  ((∀ c, step w p c s = None) → pc s = Returned) ∧
  (pc s = Returned → running s = [] ∧ sending s = [] ∧ errChan s = []) ∧
  (∃ cs s', run w p cs s = Some s' ∧ pc s' = Returned).
Proof.
  intros Hreach.
  pose proof (flow_reachable w p s Hreach) as Hflow.
  pose proof (flow_cap w s Hflow) as Hcap. unfold errChanCap in Hcap.
  assert (blocked_on_send s → length (errChan s) = 1) as Hfull.
  { intros [_ Hsend]. unfold can_send in Hsend.
    apply bool_decide_eq_false in Hsend. unfold errChanCap in Hsend. lia. }
  split_and!.
  - done.
  - intros Hb. split; [by apply Hfull|]. intros Hpc.
    destruct (returned_quiescent w p s Hreach Hpc) as (_ & Hsd & _).
    by destruct Hb.
  - intros Hb i Hpc. pose proof (Hfull Hb) as Hlen.
    pose proof (phase_reachable w p s Hreach) as Hinv.
    unfold phase_inv in Hinv. rewrite Hpc in Hinv. destruct Hinv as [_ ->].
    destruct Hflow as [H1 H2 H3 _ _ _ _].
    apply Permutation_length in H2, H3.
    rewrite length_fmap in H3. rewrite !length_app in *.
    destruct (errChan s) as [|r [|r' rest]] eqn:Hch; simplify_eq/=.
    eexists. unfold main_step. rewrite Hpc, Hch.
    rewrite decide_True by lia. split; [done|].
    done.
  - by apply stuck_returned.
  - intros Hpc.
    by destruct (returned_quiescent w p s Hreach Hpc) as (? & ? & ? & _).
  - by apply returns_eventually.
Qed.
End channel_claims.


Example resources_fail_errors : errors (final resources_fail acme acme_schedule) = ["render failed"].
Proof. vm_compute. reflexivity. Qed.
Example resources_fail_files : elements (files (final resources_fail acme acme_schedule)) = ["mkdocs.yml"; "docs/index.md"; "docs/data-sources/acme_zone.md"].
Proof. vm_compute. reflexivity. Qed.
Example stray_files : elements (files (final fine stray stray_schedule)) = ["mkdocs.yml"; "docs/index.md"].
Proof. vm_compute. reflexivity. Qed.
Example acme_reversed_runs : run fine acme acme_reversed initial = Some (final fine acme acme_reversed).
Proof. vm_compute. reflexivity. Qed.
Example acme_reversed_returns : pc (final fine acme acme_reversed) = Returned.
Proof. vm_compute. reflexivity. Qed.
Example bare_blocked : blocked_on_send (final fine bare bare_two_senders).
Proof. vm_compute. done. Qed.

(** C1, counterexample. With the resource named ../index the resource
    document and the index document share the path docs/index.md: the run
    launches three goroutines, all succeed, and two files exist. *)
Lemma files_can_collide :
  ¬ (∀ (Fields Templates error : Type) (w : World Fields Templates error)
       (p : Provider Fields) a t (s : State Fields Templates error),
       loaded w a t → reachable w p s → pc s = Returned →
       (∀ g, result w g = None) →
       length (launched (trace s)) = 2 + size (ResourcesMap p)
                                       + size (DataSourcesMap p) ∧
       size (files s) = 2 + size (ResourcesMap p) + size (DataSourcesMap p)).
Proof.
  intros Hclaim.
  destruct (Hclaim unit unit string fine stray (acme_args false) tt
              (final fine stray stray_schedule)) as [_ Hfiles].
  - done.
  - exists stray_schedule. vm_compute. reflexivity.
  - vm_compute. reflexivity.
  - done.
  - vm_compute in Hfiles. discriminate.
Qed.

(** C2, counterexample. With two goroutines at their send, the first
    send fills the buffer and the second goroutine is blocked. *)
Lemma worker_blocks_on_send :
  ¬ (∀ (Fields Templates error : Type) (w : World Fields Templates error)
       (p : Provider Fields) (s : State Fields Templates error),
       reachable w p s → ¬ blocked_on_send s).
Proof.
  intros Hclaim.
  apply (Hclaim unit unit string fine bare (final fine bare bare_two_senders)).
  - exists bare_two_senders. vm_compute. reflexivity.
  - vm_compute. done.
Qed.


(** C1, witness: two tasks per provider and one per entry, four files. *)
Lemma submits_one_task_per_document_witness :
  totalGoroutines (final fine acme acme_reversed) = 4 ∧
  size (files (final fine acme acme_reversed)) = 4.
Proof.
  destruct (submits_one_task_per_document fine acme (acme_args false) tt
              (final fine acme acme_reversed)) as (Htotal & _ & _ & Hfiles).
  - done.
  - exists acme_reversed. vm_compute. reflexivity.
  - left. vm_compute. reflexivity.
  - split; [exact Htotal|].
    destruct Hfiles as (_ & _ & Hsize).
    + vm_compute. reflexivity.
    + done.
    + apply Hsize. split; apply map_Forall_singleton; vm_compute; exact I.
Defined.

(** C2, witness: the buffer bound and the return of a run with a blocked sender. *)
Lemma errChan_holds_one_result_witness :
  length (errChan (final fine bare bare_two_senders)) ≤ 1 ∧
  ∃ cs s', run fine bare cs (final fine bare bare_two_senders) = Some s' ∧
           pc s' = Returned.
Proof.
  destruct (errChan_holds_one_result fine bare
              (final fine bare bare_two_senders)) as (Hcap & _ & _ & _ & _ & Hret).
  - exists bare_two_senders. vm_compute. reflexivity.
  - split; [exact Hcap|exact Hret].
Defined.

(** C3, witness: a failed template loading. *)
Lemma fatal_error_short_circuits_witness :
  launched (trace (final bad_templates acme [RunMain; RunMain; RunMain])) = [] ∧
  errors (final bad_templates acme [RunMain; RunMain; RunMain])
  = ["no templates"].
Proof.
  destruct (fatal_error_short_circuits bad_templates acme
              (final bad_templates acme [RunMain; RunMain; RunMain])
              "no templates") as (Hl & _ & _ & _ & _ & _ & Herr & _).
  - exists [RunMain; RunMain; RunMain]. vm_compute. reflexivity.
  - right. split; [vm_compute; apply list_elem_of_here|reflexivity].
  - split; [exact Hl|]. apply Herr. reflexivity.
Defined.

(** C4, witness: a failing resource document among four. *)
Lemma aggregator_collects_all_witness :
  length (received (trace (final resources_fail acme acme_reversed))) = 4 ∧
  errors (final resources_fail acme acme_reversed) = ["render failed"].
Proof.
  destruct (aggregator_collects_all resources_fail acme
              (final resources_fail acme acme_reversed))
    as (Hlen & _ & _ & _ & Herr & _).
  - exists acme_reversed. vm_compute. reflexivity.
  - vm_compute. reflexivity.
  - split; [exact Hlen|]. rewrite Herr; [vm_compute; reflexivity|].
    vm_compute. discriminate.
Defined.

(** C5, witness: a run whose goroutines finish in reverse order; four
    launches, then four receives. *)
Lemma submit_all_then_drain_witness :
  submit_before_drain (trace (final fine acme acme_reversed)) ∧
  length (launched (trace (final fine acme acme_reversed))) = 4 ∧
  length (received (trace (final fine acme acme_reversed))) = 4.
Proof.
  destruct (submit_all_then_drain fine acme (final fine acme acme_reversed))
    as (Hord & _ & _ & Hloaded).
  - exists acme_reversed. vm_compute. reflexivity.
  - destruct (Hloaded (acme_args false) ()) as (_ & _ & Hret & _); [done|].
    destruct Hret as [Hp Hlen]; [vm_compute; reflexivity|].
    split_and!; [exact Hord| |exact Hlen].
    rewrite (Permutation_length Hp). vm_compute. reflexivity.
Defined.


(** C7, witness: a run with -help. *)
Lemma help_prints_usage_only_witness :
  run help_asked acme [RunMain; RunMain] initial
  = Some (goto Returned (emit EvUsage initial)).
Proof.
  apply (help_prints_usage_only help_asked acme (acme_args true) initial).
  - reflexivity.
  - reflexivity.
  - exists []. reflexivity.
Defined.


(** C9, witness: a run with one failing document. *)
Lemma errors_bounded_by_tasks_witness :
  length (errors (final resources_fail acme acme_schedule)) ≤ 4.
Proof.
  destruct (errors_bounded_by_tasks resources_fail acme
              (final resources_fail acme acme_schedule)) as [Hle _].
  - exists acme_schedule. vm_compute. reflexivity.
  - exact Hle.
Defined.


(** * Further properties of Document *)

Section shape.
Context {Fields Templates error : Type}.
Implicit Types (w : World Fields Templates error) (p : Provider Fields).
Implicit Types (s : State Fields Templates error) (c : Choice).
Implicit Types (a : arguments) (t : Templates).
Implicit Types (g : Goroutine Fields Templates).
Implicit Types (tr : list (Event Fields Templates error)).

Lemma started_app tr evs :
  started tr → Forall after_loading evs → started (tr ++ evs).
Proof.
  intros (tr' & -> & Htr') Hevs. exists (tr' ++ evs).
  split; [done|]. by apply Forall_app.
Qed.

(** A trace in which a goroutine was launched or has finished is not
    the empty trace nor the usage text. *)
Lemma shape_started s :
  launched (trace s) ≠ [] ∨ finished (trace s) ≠ [] →
  trace s = [] ∨ trace s = [EvUsage] ∨ started (trace s) →
  started (trace s).
Proof.
  intros Hne [Htr|[Htr|Htr]]; [|
    |done]; rewrite Htr in Hne; by destruct Hne.
Qed.

Lemma work_trace w k s s' :
  work w k s = Some s' →
  running s ≠ [] ∧ pc s' = pc s ∧
  ∃ evs, trace s' = trace s ++ evs ∧ Forall after_loading evs.
Proof.
  unfold work. intros Hw.
  destruct (running s !! k) as [g|] eqn:Hg; simplify_eq/=.
  split; [by intros Hnil; rewrite Hnil in Hg|]. split; [done|].
  destruct (result w g); eexists; (split; [done|]); by repeat constructor.
Qed.

Lemma send_trace k s s' :
  send k s = Some s' →
  sending s ≠ [] ∧ pc s' = pc s ∧
  ∃ evs, trace s' = trace s ++ evs ∧ Forall after_loading evs.
Proof.
  unfold send. intros Hs.
  destruct (sending s !! k) as [r|] eqn:Hr; simplify_eq/=.
  split; [by intros Hnil; rewrite Hnil in Hr|].
  destruct (can_send s); simplify_eq/=. split; [done|].
  eexists; (split; [done|]); by repeat constructor.
Qed.

(** A step of a goroutine keeps the shape of the trace. *)
Lemma trace_shape_frame w p s s' evs :
  flow_inv w s → phase_inv w p s →
  running s ≠ [] ∨ sending s ≠ [] →
  pc s' = pc s → trace s' = trace s ++ evs → Forall after_loading evs →
  trace_shape s → trace_shape s'.
Proof.
  intros Hflow Hinv Hne Hpc Htr Hevs. unfold trace_shape, phase_inv in *.
  rewrite Hpc, Htr.
  assert (launched (trace s) ≠ [] ∨ finished (trace s) ≠ []) as Hsome.
  { destruct Hflow as [_ H2 H3 _ _ _ _].
    apply Permutation_length in H2, H3.
    rewrite length_fmap in H3. rewrite !length_app in *.
    destruct Hne as [Hne|Hne]; [left|right]; intros Hnil; rewrite Hnil in *;
      apply Hne, length_zero_iff_nil; simpl in *; lia. }
  destruct (pc s) eqn:Hm; try by (intros; apply started_app).
  - subst s. by destruct Hne.
  - destruct Hinv as [_ ->]. by destruct Hne.
  - destruct Hinv as (_ & _ & ->). by destruct Hne.
  - intros Hshape. do 2 right. apply started_app; [|done].
    by apply shape_started.
Qed.

Lemma trace_shape_step w p c s s' :
  flow_inv w s → phase_inv w p s → trace_shape s →
  step w p c s = Some s' → trace_shape s'.
Proof.
  intros Hflow Hinv Hshape Hstep. step_cases Hstep.
  all: try (unfold trace_shape in *; simpl;
            match goal with H : pc _ = _ |- _ => rewrite H in Hshape end).
  all: try done.
  all: try by (apply started_app; [done|by repeat constructor]).
  - by left.
  - right; left. by rewrite Hshape.
  - do 2 right. rewrite Hshape. by exists [].
  - rewrite Hshape. by exists [].
  - by do 2 right.
  - apply work_trace in Hstep as (? & ? & evs & ? & ?).
    eapply trace_shape_frame; eauto.
  - apply send_trace in Hstep as (? & ? & evs & ? & ?).
    eapply trace_shape_frame; eauto.
Qed.

Lemma trace_shape_reachable w p s : reachable w p s → trace_shape s.
Proof.
  revert s. apply (reachable_ind w p (λ s, trace_shape s)); [done|].
  intros c s0 s1 Hreach Hshape.
  apply (trace_shape_step w p); [|by apply phase_reachable|done].
  by eapply flow_reachable.
Qed.

(** The trace of a reachable state, whatever its program point. *)
Lemma trace_cases w p s :
  reachable w p s →
  trace s = [] ∨ trace s = [EvUsage] ∨ started (trace s).
Proof.
  intros Hshape%trace_shape_reachable. unfold trace_shape in Hshape.
  destruct (pc s); auto.
Qed.

Lemma started_no_usage tr : started tr → EvUsage ∉ tr.
Proof.
  intros (tr' & -> & Htr') [?|Hin]%elem_of_cons; [done|].
  rewrite Forall_forall in Htr'. by apply Htr' in Hin.
Qed.

(** X1. Document prints the usage text only when argument parsing
    succeeded with the help flag set: a run whose trace holds the usage
    text is the run that printed it and returned at once, with nothing
    else done and no error. *)
Theorem usage_only_on_help w p s :
  reachable w p s → EvUsage ∈ trace s →
  ∃ a, parseArgs w = (a, None) ∧ help a = true ∧
       s = goto Returned (emit EvUsage initial).
Proof.
  intros Hreach Hin.
  pose proof (phase_reachable w p s Hreach) as Hinv.
  pose proof (trace_shape_reachable w p s Hreach) as Hshape.
  unfold phase_inv, trace_shape in *.
  destruct (pc s) eqn:Hpc;
    try (by rewrite Hshape in Hin; apply not_elem_of_nil in Hin);
    try (by apply started_no_usage in Hshape).
  destruct Hshape as [Htr|[Htr|Htr]].
  - rewrite Htr in Hin. by apply not_elem_of_nil in Hin.
  - destruct Hinv as
      [(? & ? & _ & ->)|[(a & ? & ? & ->)|[(? & ? & ? & _ & _ & _ & ->)
      |[(a & t & _ & Hp & _) _]]]]; try done.
    + by exists a.
    + rewrite Htr in Hp. simpl in Hp. by apply Permutation_nil_cons in Hp.
  - by apply started_no_usage in Htr.
Qed.

(** X2. Templates are loaded only after argument parsing succeeded
    without the help flag, and then once, before anything else: the
    loading is the first event of the trace, it does not occur again, the
    usage text is never printed after it, and every launch comes after
    it. *)
Theorem templates_loaded_once_first w p s :
  reachable w p s → EvLoadTemplates ∈ trace s →
  (∃ a, parseArgs w = (a, None) ∧ help a = false) ∧
  ∃ tr', trace s = EvLoadTemplates :: tr' ∧
         (EvLoadTemplates ∉ tr') ∧ (EvUsage ∉ tr') ∧
         launched (trace s) = launched tr'.
Proof.
  intros Hreach Hin. split; [by eapply load_templates_called|].
  destruct (trace_cases w p s Hreach) as [Htr|[Htr|(tr' & Htr & Htr')]].
  - rewrite Htr in Hin. by apply not_elem_of_nil in Hin.
  - rewrite Htr in Hin. by apply list_elem_of_singleton in Hin.
  - exists tr'. rewrite Forall_forall in Htr'. split_and!; [done| | |by rewrite Htr].
    + by intros ?%Htr'.
    + by intros ?%Htr'.
Qed.

(** X4. In every state of a run, totalGoroutines is the number of
    goroutines launched so far; the dispatcher has never received more
    results than that, and the count never exceeds
    2 + |ResourcesMap| + |DataSourcesMap|. *)
Theorem totalGoroutines_counts_launches w p s :
  reachable w p s →
  totalGoroutines s = length (launched (trace s)) ∧
  length (received (trace s)) ≤ totalGoroutines s ∧
  totalGoroutines s ≤ documents_count p.
Proof.
  intros Hreach. pose proof (flow_reachable w p s Hreach) as Hflow.
  split_and!.
  - apply (flow_total w s Hflow).
  - by apply (received_le_total w).
  - rewrite (flow_total w s Hflow).
    destruct (launched_cases w p s Hreach) as [->|(a & t & _ & Hp)];
      [simpl; lia|].
    apply Permutation_length in Hp.
    rewrite length_app, length_documents in Hp. lia.
Qed.

(** X7. Every schedule is finite: a run from the initial state has at
    most 4 * (2 + |ResourcesMap| + |DataSourcesMap|) + 8 steps, and a run
    that cannot be continued has ended with Document returned. *)
Theorem every_schedule_bounded w p cs s :
  run w p cs initial = Some s →
  length cs ≤ 4 * documents_count p + 8 ∧
  ((∀ c, step w p c s = None) → pc s = Returned).
Proof.
  intros Hrun. split.
  - pose proof (run_bounded w p cs initial s Hrun) as Hle.
    unfold measure in Hle. simpl in Hle. unfold documents_count in *. lia.
  - apply stuck_returned. by exists cs.
Qed.

End shape.

Section launches.
Context {Fields Templates error : Type}.
Implicit Types (w : World Fields Templates error) (p : Provider Fields).
Implicit Types (s : State Fields Templates error) (c : Choice).
Implicit Types (a : arguments) (t : Templates).
Implicit Types (g : Goroutine Fields Templates).

Lemma launched_in_order_step w p a t c s s' :
  loaded w a t → phase_inv w p s → launched_in_order p a t s →
  step w p c s = Some s' → launched_in_order p a t s'.
Proof.
  intros Hl Hinv Hord Hstep. pose proof Hl as (Ha & Hh & Ht).
  step_cases Hstep.
  all: try (unfold launched_in_order, phase_inv in *; simpl;
            match goal with H : pc _ = _ |- _ =>
              rewrite H in Hord; rewrite H in Hinv end).
  all: try congruence.
  all: try (destruct Hinv as [Hl0 _];
            destruct (loaded_inj w a0 t0 a t Hl0 Hl) as [-> ->]).
  - destruct Hinv as [? _]. congruence.
  - destruct Hinv as (? & _). congruence.
  - by trace_simpl.
  - trace_simpl. by rewrite Hord.
  - trace_simpl. rewrite Hord. by exists [].
  - destruct Hord as (rs & Hrs & Hp). exists rs, [].
    unfold resourceDocs in Hp at 1.
    rewrite map_to_list_empty in Hp. simpl in Hp.
    by rewrite !app_nil_r in *.
  - destruct Hord as (rs & ds & Hrs & Hp & Hq). exists rs, ds.
    unfold dataSourceDocs in Hq at 1.
    rewrite map_to_list_empty in Hq. simpl in Hq.
    by rewrite app_nil_r in Hq.
  - destruct Hord as (rs & ds & Hrs & Hp & Hq). exists rs, ds.
    by trace_simpl.
  - destruct Hord as (rs & Hrs & Hp).
    exists (rs ++ [resourceMd a t nm H]). trace_simpl. rewrite Hrs.
    split; [done|]. rewrite <-Hp, <-(app_assoc rs). f_equiv. symmetry.
    by apply resourceDocs_delete.
  - destruct Hord as (rs & ds & Hrs & Hp & Hq).
    exists rs, (ds ++ [dataSourceMd a t nm H]). trace_simpl. rewrite Hrs.
    split_and!; [simpl; by rewrite <-app_assoc|done|].
    rewrite <-Hq, <-(app_assoc ds). f_equiv. symmetry.
    by apply dataSourceDocs_delete.
  - apply work_frame in Hstep as (_ & Hpc & _ & _ & Hla & _).
    unfold launched_in_order in *. by rewrite Hpc, Hla.
  - apply send_frame in Hstep as (_ & Hpc & _ & _ & Hla & _).
    unfold launched_in_order in *. by rewrite Hpc, Hla.
Qed.

Lemma launched_in_order_reachable w p a t s :
  loaded w a t → reachable w p s → launched_in_order p a t s.
Proof.
  intros Hl. revert s.
  apply (reachable_ind w p (λ s, launched_in_order p a t s)); [done|].
  intros c s0 s1 Hreach Hord.
  apply (launched_in_order_step w p); [done|by apply phase_reachable|done].
Qed.

(** X3. Document launches its goroutines in a fixed order of roles: the
    config document first, the index document second, then the resource
    documents in some order of the resources map, then the data-source
    documents in some order of the data-sources map. At every moment the
    launches so far are a prefix of such a list, and the whole of it once
    the submissions are over. *)
Theorem launch_order w p a t s :
  loaded w a t → reachable w p s →
  ∃ rs ds,
    rs ≡ₚ resourceDocs a t (ResourcesMap p) ∧
    ds ≡ₚ dataSourceDocs a t (DataSourcesMap p) ∧
    launched (trace s)
      `prefix_of` mkdocsYml p a t :: indexMd p a t :: rs ++ ds ∧
    (submitted s →
     launched (trace s) = mkdocsYml p a t :: indexMd p a t :: rs ++ ds).
Proof.
  intros Hl Hreach.
  pose proof (launched_in_order_reachable w p a t s Hl Hreach) as Hord.
  unfold launched_in_order, submitted in Hord |- *.
  set (R := resourceDocs a t (ResourcesMap p)).
  set (D := dataSourceDocs a t (DataSourcesMap p)).
  destruct (pc s) eqn:Hpc.
  1-4: exists R, D; rewrite Hord; split_and!;
       [done|done|apply prefix_nil|by intros [?|[? ?]]].
  - exists R, D. rewrite Hord. split_and!; [done|done| |by intros [?|[? ?]]].
    by apply (prefix_cons _ []), prefix_nil.
  - destruct Hord as (rs & -> & Hp).
    exists (rs ++ resourceDocs a t todo), D.
    split_and!; [done|done| |by intros [?|[? ?]]].
    do 2 apply prefix_cons. rewrite <-app_assoc. by apply prefix_app_r.
  - destruct Hord as (rs & ds & -> & Hp & Hq).
    exists rs, (ds ++ dataSourceDocs a t todo).
    split_and!; [done|done| |by intros [?|[? ?]]].
    do 2 apply prefix_cons. apply prefix_app. by apply prefix_app_r.
  - destruct Hord as (rs & ds & -> & Hp & Hq). by exists rs, ds.
  - destruct Hord as (rs & ds & -> & Hp & Hq). by exists rs, ds.
Qed.
End launches.

Section outcome.
Context {Fields Templates error : Type}.
Implicit Types (w : World Fields Templates error) (p : Provider Fields).
Implicit Types (s : State Fields Templates error) (c : Choice).
Implicit Types (a : arguments) (t : Templates).
Implicit Types (g : Goroutine Fields Templates).

Lemma non_nil_fmap {A} (f : A → option error) (l : list A) :
  non_nil (f <$> l) = omap f l.
Proof.
  unfold non_nil. induction l as [|x l IH]; [done|].
  cbn. destruct (f x); cbn; by rewrite IH.
Qed.

Lemma length_omap_filter {A} (f : A → option error) (l : list A) :
  length (omap f l) + length (filter (λ x, f x = None) l) = length l.
Proof.
  induction l as [|x l IH]; [done|].
  destruct (f x) eqn:Hx.
  - rewrite filter_cons_False by congruence. cbn. rewrite Hx. simpl. lia.
  - rewrite filter_cons_True by done. cbn. rewrite Hx. simpl. lia.
Qed.

(** A returned run that loaded its templates went through the drain
    loop. *)
Lemma loaded_returned w p a t s :
  loaded w a t → reachable w p s → pc s = Returned →
  launched (trace s) ≡ₚ documents p a t ∧
  errors s = non_nil (received (trace s)).
Proof.
  intros Hl Hreach Hpc. pose proof (phase_reachable w p s Hreach) as Hinv.
  unfold phase_inv in Hinv. rewrite Hpc in Hinv. destruct Hl as (Ha & Hh & Ht).
  destruct Hinv as
    [(? & ? & ? & _)|[(? & ? & ? & _)|[(? & ? & ? & ? & ? & ? & _)
    |[(a' & t' & Hl' & ? & ?) _]]]]; try congruence.
  by destruct (loaded_inj w a t a' t') as [-> ->].
Qed.

(** The errors and the files of a returned run that loaded its
    templates. *)
Lemma returned_outcome w p a t s :
  loaded w a t → reachable w p s → pc s = Returned →
  errors s ≡ₚ omap (result w) (documents p a t) ∧
  files s
  = list_to_set ((outFile ∘ base)
                   <$> filter (λ g, result w g = None) (documents p a t)).
Proof.
  intros Hl Hreach Hpc.
  destruct (returned_quiescent w p s Hreach Hpc)
    as (_ & _ & _ & _ & Hfin & Hrecv).
  pose proof (flow_reachable w p s Hreach) as Hflow.
  destruct (loaded_returned w p a t s Hl Hreach Hpc) as [Hp Herr].
  split.
  - rewrite Herr. unfold non_nil. rewrite Hrecv.
    fold (non_nil (result w <$> launched (trace s))).
    by rewrite non_nil_fmap, Hp.
  - rewrite (flow_files w s Hflow), (flow_written w s Hflow).
    apply list_to_set_perm_L. by rewrite Hfin, Hp.
Qed.

(** The states in which Document has returned without loading the
    templates, or after failing to, are fixed by the world. *)
Lemma returned_cases w p s :
  reachable w p s → pc s = Returned →
  (∃ a t, loaded w a t) ∨
  (∀ s', reachable w p s' → pc s' = Returned → s' = s).
Proof.
  intros Hreach Hpc. pose proof (phase_reachable w p s Hreach) as Hinv.
  unfold phase_inv in Hinv. rewrite Hpc in Hinv.
  destruct Hinv as
    [(a & err & Ha & ->)|[(a & Ha & Hh & ->)|[(a & t & err & Ha & Hh & Ht & ->)
    |[(a & t & Hl & _) _]]]].
  - right. intros s' Hreach' Hpc'.
    destruct (args_failed_states w p a err s' Ha Hreach') as [->| ->]; done.
  - right. intros s' Hreach' Hpc'.
    destruct (help_states w p a s' Ha Hh Hreach') as [->|[->| ->]]; done.
  - right. intros s' Hreach' Hpc'.
    destruct (templates_failed_states w p a t err s' Ha Hh Ht Hreach')
      as [->|[->|[->| ->]]]; done.
  - left. eauto.
Qed.

(** X6. When a run that loaded its templates has returned, the errors
    returned are, up to their order, exactly the errors of the documents
    that failed, and the files written are exactly the output paths of the
    documents that succeeded: a failing document neither hides the error
    nor prevents the file of another. Errors and successful documents add
    up to 2 + |ResourcesMap| + |DataSourcesMap|. *)
Theorem returns_errors_of_failing_documents w p a t s :
  loaded w a t → reachable w p s → pc s = Returned →
  errors s ≡ₚ omap (result w) (documents p a t) ∧
  files s
  = list_to_set ((outFile ∘ base)
                   <$> filter (λ g, result w g = None) (documents p a t)) ∧
  length (errors s)
  + length (filter (λ g, result w g = None) (documents p a t))
  = documents_count p.
Proof.
  intros Hl Hreach Hpc.
  destruct (returned_outcome w p a t s Hl Hreach Hpc) as [Herrs Hfiles].
  split_and!; [done|done|].
  rewrite (Permutation_length Herrs), <-(length_documents p a t).
  apply length_omap_filter.
Qed.

(** X5. What Document returns does not depend on the schedule nor on
    the order in which the maps are ranged over: two runs of the same
    provider in the same world that have both returned have the same
    errors up to their order, the same files, the same launched
    goroutines up to their order, and the same exit status. *)
Theorem outcome_schedule_independent w p s1 s2 :
  reachable w p s1 → reachable w p s2 →
  pc s1 = Returned → pc s2 = Returned →
  errors s1 ≡ₚ errors s2 ∧ files s1 = files s2 ∧
  launched (trace s1) ≡ₚ launched (trace s2) ∧
  exitStatus (errors s1) = exitStatus (errors s2).
Proof.
  intros Hreach1 Hreach2 Hpc1 Hpc2.
  assert (errors s1 ≡ₚ errors s2 ∧ files s1 = files s2 ∧
          launched (trace s1) ≡ₚ launched (trace s2)) as (He & Hf & Hl).
  { destruct (returned_cases w p s1 Hreach1 Hpc1) as [(a & t & Hl)|Heq].
    - destruct (returned_outcome w p a t s1 Hl Hreach1 Hpc1) as [He1 Hf1].
      destruct (returned_outcome w p a t s2 Hl Hreach2 Hpc2) as [He2 Hf2].
      destruct (loaded_returned w p a t s1 Hl Hreach1 Hpc1) as [Hp1 _].
      destruct (loaded_returned w p a t s2 Hl Hreach2 Hpc2) as [Hp2 _].
      split_and!; [by rewrite He1, He2|by rewrite Hf1, Hf2|by rewrite Hp1, Hp2].
    - by rewrite (Heq s2 Hreach2 Hpc2). }
  split_and!; try done.
  unfold exitStatus. destruct (errors s1) as [|e1 l1], (errors s2) as [|e2 l2];
    try done.
  - by apply Permutation_nil_cons in He.
  - symmetry in He. by apply Permutation_nil_cons in He.
Qed.
End outcome.

Example docs_prefix_empty : docs_prefix "" = "".
Proof. reflexivity. Qed.
Example docs_prefix_dot : docs_prefix "./" = "".
Proof. reflexivity. Qed.
Example docs_prefix_root : docs_prefix "//" = "/".
Proof. reflexivity. Qed.
Example docs_prefix_dirty : docs_prefix "site//./docs/x/../" = "site/docs/".
Proof. reflexivity. Qed.
Example docs_prefix_up : docs_prefix "../docs" = "../docs/".
Proof. reflexivity. Qed.

Section prefix.
Import filepath.
Implicit Types (s x d : string) (l xs out : list string).

Lemma append_assoc s1 s2 s3 : (s1 +:+ s2) +:+ s3 = s1 +:+ (s2 +:+ s3).
Proof.
  induction s1 as [|c s1 IH]; [done|].
  change (String c ((s1 +:+ s2) +:+ s3) = String c (s1 +:+ (s2 +:+ s3))).
  by f_equal.
Qed.

Lemma concat_app l1 l2 :
  l1 ≠ [] → l2 ≠ [] →
  String.concat "/" (l1 ++ l2)
  = String.concat "/" l1 +:+ "/" +:+ String.concat "/" l2.
Proof.
  intros Hl1 Hl2. induction l1 as [|x l1 IH]; [done|].
  destruct l1 as [|y l1].
  - simpl. by destruct l2.
  - change (String.concat "/" ((x :: y :: l1) ++ l2))
      with (x +:+ "/" +:+ String.concat "/" ((y :: l1) ++ l2)).
    rewrite IH by done.
    change (String.concat "/" (x :: y :: l1))
      with (x +:+ "/" +:+ String.concat "/" (y :: l1)).
    by rewrite !append_assoc.
Qed.

(** Clean keeps no empty element and no ".". *)
Lemma clean_step_kept r out x :
  Forall (λ x, x ≠ "" ∧ x ≠ ".") out →
  Forall (λ x, x ≠ "" ∧ x ≠ ".") (clean_step r out x).
Proof.
  intros Hout. unfold clean_step.
  destruct (decide (x = "" ∨ x = ".")) as [|Hx]; [done|].
  assert (x ≠ "" ∧ x ≠ ".") by (split; intros ->; apply Hx; auto).
  case_decide; [|by constructor].
  destruct out as [|top out'].
  - destruct r; [done|]. by apply Forall_singleton.
  - case_decide; [by constructor|]. by apply Forall_cons in Hout as [_ ?].
Qed.

Lemma kept_elems d : Forall (λ x, x ≠ "" ∧ x ≠ ".") (kept d).
Proof.
  unfold kept, clean_elems. apply Forall_reverse.
  generalize (@nil string) (Forall_nil_2 (λ x : string, x ≠ "" ∧ x ≠ ".")).
  induction (split d) as [|x l IH]; intros out Hout; [done|].
  simpl. apply IH. by apply clean_step_kept.
Qed.

Lemma Clean_kept d :
  Clean d = (let r := (if rooted d then "/" else "")
                      +:+ String.concat "/" (kept d) in
             if decide (r = "") then "." else r).
Proof. done. Qed.

Lemma concat_kept_first k ks :
  no_sep k → k ≠ "" → k ≠ "." →
  String.concat "/" (k :: ks) ≠ "" ∧ String.concat "/" (k :: ks) ≠ "." ∧
  String.concat "/" (k :: ks) ≠ "/".
Proof.
  intros Hk Hne Hdot. destruct k as [|c k]; [done|].
  simpl in Hk. apply andb_True in Hk as [Hc _]. apply negb_True in Hc.
  destruct ks as [|k' ks].
  - simpl. split_and!; [done|done|]. intros ?; simplify_eq; by apply Hc.
  - change (String.concat "/" (String c k :: k' :: ks))
      with (String c (k +:+ "/" +:+ String.concat "/" (k' :: ks))).
    split_and!; [done| |].
    + intros ?; simplify_eq; by destruct k.
    + intros ?; simplify_eq; by apply Hc.
Qed.

(** Joining plain elements under a directory: the directory's prefix,
    then the elements. *)
Lemma Join_prefix d ys :
  ys ≠ [] → Forall plain ys →
  Join (d :: ys) = docs_prefix d +:+ String.concat "/" ys.
Proof.
  intros Hne Hys. rewrite Join_plain by done.
  unfold docs_prefix. rewrite Clean_kept. cbv zeta.
  pose proof (kept_elems d) as Hk. pose proof (kept_no_sep d) as Hs.
  destruct (kept d) as [|k ks] eqn:Hkept.
  - simpl. destruct (rooted d); simpl; done.
  - apply Forall_cons in Hk as [[Hk1 Hk2] _].
    apply Forall_cons in Hs as [Hs _].
    destruct (concat_kept_first k ks Hs Hk1 Hk2) as (Hc1 & Hc2 & Hc3).
    rewrite concat_app by done.
    set (c := (if rooted d then "/" else "") +:+ String.concat "/" (k :: ks)).
    assert (c ≠ "" ∧ c ≠ "." ∧ c ≠ "/") as (Hn1 & Hn2 & Hn3).
    { unfold c. destruct (rooted d); [|done].
      split_and!; [done|done|]. intros Heq. apply Hc1.
      change (String "/" (String.concat "/" (k :: ks)) = String "/" "") in Heq.
      by simplify_eq. }
    destruct (decide (c = "")); [done|].
    destruct (decide (c = ".")); [done|].
    destruct (decide (c = "/")); [done|].
    unfold c. by rewrite !append_assoc.
Qed.
End prefix.

Section cleaned.
Context {Fields Templates error : Type}.
Implicit Types (w : World Fields Templates error) (p : Provider Fields).
Implicit Types (s : State Fields Templates error) (c : Choice).
Implicit Types (a : arguments) (t : Templates).
Implicit Types (g : Goroutine Fields Templates).

(** X8. For names without a separator and any docs directory, also an
    empty, absolute or unclean one, the output path of a launched goroutine
    is mkdocs.yml for the config document and otherwise the cleaned docs
    directory followed by index.md, resources/name.md or
    data-sources/name.md; the empty and the current directory contribute
    nothing, so that these documents then land beside mkdocs.yml. *)
Theorem outFile_under_cleaned_docsDir w p a t s g :
  loaded w a t → reachable w p s → g ∈ launched (trace s) →
  names_no_sep p → outFile (base g) = cleaned_outFile a g.
Proof.
  intros Hl Hreach Hg [HR HD].
  pose proof (launched_documents w p s a t g Hl Hreach Hg) as Hdoc.
  apply elem_of_documents in Hdoc.
  pose proof plain_index. pose proof plain_resources.
  pose proof plain_data_sources.
  destruct Hdoc as [->|[->|[(nm & r & Hnm & ->)|(nm & r & Hnm & ->)]]];
    [done|..];
    unfold indexMd, resourceMd, dataSourceMd, cleaned_outFile;
    cbn [base schema_base outFile schemaType name].
  - rewrite Join_prefix; [done|done|plain_list].
  - pose proof (HR nm r Hnm).
    rewrite Join_prefix; [done|done|plain_list].
  - pose proof (HD nm r Hnm).
    rewrite Join_prefix; [done|done|plain_list].
Qed.
End cleaned.

Section entries.
Context {Fields Templates error : Type}.
Implicit Types (w : World Fields Templates error) (p : Provider Fields).
Implicit Types (s : State Fields Templates error) (c : Choice).
Implicit Types (a : arguments) (t : Templates).
Implicit Types (g : Goroutine Fields Templates).

Lemma NoDup_entry_docs (f : string → Resource Fields → Goroutine Fields Templates)
    (m : gmap string (Resource Fields)) :
  (∀ n1 r1 n2 r2, f n1 r1 = f n2 r2 → n1 = n2) →
  NoDup (uncurry f <$> map_to_list m).
Proof.
  intros Hf. apply NoDup_fmap_2_strong; [|apply NoDup_map_to_list].
  intros [n1 r1] [n2 r2] H1%elem_of_map_to_list H2%elem_of_map_to_list Heq.
  simpl in Heq. apply Hf in Heq as ->. congruence.
Qed.

(** No two documents of a provider are the same goroutine. *)
Lemma NoDup_documents p a t : NoDup (documents p a t).
Proof.
  unfold documents. repeat apply NoDup_cons_2.
  - rewrite elem_of_cons, elem_of_app, !list_elem_of_fmap.
    intros [?|[([] & ? & _)|([] & ? & _)]]; done.
  - rewrite elem_of_app, !list_elem_of_fmap.
    intros [([] & ? & _)|([] & ? & _)]; done.
  - apply NoDup_app. split_and!.
    + apply NoDup_entry_docs. intros n1 r1 n2 r2 Heq. by simplify_eq.
    + intros g ([] & -> & _)%list_elem_of_fmap ([] & ? & _)%list_elem_of_fmap.
      done.
    + apply NoDup_entry_docs. intros n1 r1 n2 r2 Heq. by simplify_eq.
Qed.

(** X9. No goroutine is launched twice, and each launched goroutine
    carries the data of its own entry: the provider and the arguments for
    the config document, the provider's name and fields for the index, and
    for a resource or data-source document the fields registered under its
    name in the map of its kind. *)
Theorem launched_once_with_its_entry w p a t s :
  loaded w a t → reachable w p s →
  NoDup (launched (trace s)) ∧
  ∀ g, g ∈ launched (trace s) → carries_its_entry p a g.
Proof.
  intros Hl Hreach. split.
  - destruct (launched_cases w p s Hreach) as [->|(a' & t' & _ & Hp)];
      [constructor|].
    pose proof (NoDup_documents p a' t') as Hnd. rewrite <-Hp in Hnd.
    by apply NoDup_app in Hnd as [? _].
  - intros g Hg.
    pose proof (launched_documents w p s a t g Hl Hreach Hg) as Hdoc.
    apply elem_of_documents in Hdoc.
    destruct Hdoc as [->|[->|[(nm & r & Hnm & ->)|(nm & r & Hnm & ->)]]];
      simpl; eauto.
Qed.
End entries.

(** X1, witness: a run with -help. *)
Lemma usage_only_on_help_witness :
  ∃ a, parseArgs help_asked = (a, None) ∧ help a = true ∧
       final help_asked acme [RunMain; RunMain]
       = goto Returned (emit EvUsage initial).
Proof.
  apply (usage_only_on_help help_asked acme).
  - exists [RunMain; RunMain]. vm_compute. reflexivity.
  - vm_compute. apply list_elem_of_here.
Defined.

(** X2, witness: a full run of the acme provider. *)
Lemma templates_loaded_once_first_witness :
  ∃ tr', trace (final fine acme acme_reversed) = EvLoadTemplates :: tr' ∧
         (EvLoadTemplates ∉ tr') ∧ (EvUsage ∉ tr') ∧
         launched (trace (final fine acme acme_reversed)) = launched tr'.
Proof.
  apply (templates_loaded_once_first fine acme (final fine acme acme_reversed)).
  - exists acme_reversed. vm_compute. reflexivity.
  - vm_compute. apply list_elem_of_here.
Defined.

(** X3, witness: a full run of the acme provider. *)
Lemma launch_order_witness :
  ∃ rs ds,
    rs ≡ₚ resourceDocs (acme_args false) () (ResourcesMap acme) ∧
    ds ≡ₚ dataSourceDocs (acme_args false) () (DataSourcesMap acme) ∧
    launched (trace (final fine acme acme_reversed))
      `prefix_of` mkdocsYml acme (acme_args false) ()
                  :: indexMd acme (acme_args false) () :: rs ++ ds ∧
    (submitted (final fine acme acme_reversed) →
     launched (trace (final fine acme acme_reversed))
     = mkdocsYml acme (acme_args false) ()
       :: indexMd acme (acme_args false) () :: rs ++ ds).
Proof.
  apply (launch_order fine acme (acme_args false) ()
           (final fine acme acme_reversed)).
  - done.
  - exists acme_reversed. vm_compute. reflexivity.
Defined.

(** X4, witness: the acme provider at the end of its submissions. *)
Lemma totalGoroutines_counts_launches_witness :
  totalGoroutines (final fine acme submit_acme) = 4 ∧
  length (received (trace (final fine acme submit_acme))) ≤ 4.
Proof.
  destruct (totalGoroutines_counts_launches fine acme
              (final fine acme submit_acme)) as (Htot & Hrecv & _).
  - exists submit_acme. vm_compute. reflexivity.
  - split; [rewrite Htot; vm_compute; reflexivity|].
    etrans; [exact Hrecv|]. vm_compute. done.
Defined.

(** X5, witness: two schedules of a run with a failing resource document. *)
Lemma outcome_schedule_independent_witness :
  errors (final resources_fail acme acme_schedule)
  ≡ₚ errors (final resources_fail acme acme_reversed) ∧
  files (final resources_fail acme acme_schedule)
  = files (final resources_fail acme acme_reversed).
Proof.
  destruct (outcome_schedule_independent resources_fail acme
              (final resources_fail acme acme_schedule)
              (final resources_fail acme acme_reversed))
    as (He & Hf & _).
  - exists acme_schedule. vm_compute. reflexivity.
  - exists acme_reversed. vm_compute. reflexivity.
  - vm_compute. reflexivity.
  - vm_compute. reflexivity.
  - split; [exact He|exact Hf].
Defined.

(** X6, witness: one failing document among four. *)
Lemma returns_errors_of_failing_documents_witness :
  length (errors (final resources_fail acme acme_reversed)) +
  length (filter (λ g, result resources_fail g = None)
            (documents acme (acme_args false) ()))
  = 4.
Proof.
  destruct (returns_errors_of_failing_documents resources_fail acme
              (acme_args false) () (final resources_fail acme acme_reversed))
    as (_ & _ & Hcount).
  - done.
  - exists acme_reversed. vm_compute. reflexivity.
  - vm_compute. reflexivity.
  - exact Hcount.
Defined.

(** X7, witness: a full schedule of the acme provider. *)
Lemma every_schedule_bounded_witness :
  length acme_schedule ≤ 4 * documents_count acme + 8.
Proof.
  destruct (every_schedule_bounded fine acme acme_schedule
              (final fine acme acme_schedule)) as [Hle _].
  - vm_compute. reflexivity.
  - exact Hle.
Defined.

(** X8, witness: the path of a data-source document. *)
Lemma outFile_under_cleaned_docsDir_witness :
  outFile (base (dataSourceMd (acme_args false) () "acme_zone" widget))
  = "docs/data-sources/acme_zone.md".
Proof.
  rewrite (outFile_under_cleaned_docsDir fine acme (acme_args false) ()
             (final fine acme acme_schedule)).
  - vm_compute. reflexivity.
  - done.
  - exists acme_schedule. vm_compute. reflexivity.
  - vm_compute. do 3 apply list_elem_of_further. apply list_elem_of_here.
  - split; apply map_Forall_singleton; vm_compute; exact I.
Defined.

(** X9, witness: a full run of the acme provider. *)
Lemma launched_once_with_its_entry_witness :
  NoDup (launched (trace (final fine acme acme_schedule))).
Proof.
  destruct (launched_once_with_its_entry fine acme (acme_args false) ()
              (final fine acme acme_schedule)) as [Hnd _].
  - done.
  - exists acme_schedule. vm_compute. reflexivity.
  - exact Hnd.
Defined.
